(** * TcpSocket: connection, raw transfer and packet framing

    A shallow embedding of [src/SFML/Network/TcpSocket.cpp].  The socket
    object is a record that is threaded through every member function; the
    operating system's side of the connection is an abstract transport whose
    calls are recorded, in order, in a log kept next to the object. *)

From Stdlib Require Import ZArith List Bool Lia.
From Stdlib Require Import Strings.Byte.
Import ListNotations.
Local Open Scope Z_scope.

Set Implicit Arguments.

(** ** Machine integers *)

Definition INT_MAX : Z := 2147483647.

(** [static_cast<int>]: wrap into the signed 32-bit range. *)
Definition to_int (z : Z) : Z := (z + 2147483648) mod 4294967296 - 2147483648.

(** [static_cast<long>] on an LP64 system: wrap into the signed 64-bit range. *)
Definition to_long (z : Z) : Z :=
  (z + 9223372036854775808) mod 18446744073709551616 - 9223372036854775808.

(** [static_cast<std::uint32_t>]. *)
Definition to_uint32 (z : Z) : Z := z mod 4294967296.

(** [std::size_t] of a container. *)
Definition size (l : list byte) : Z := Z.of_nat (length l).

(** ** Status codes ([Socket::Status]) *)

Inductive Status : Type := Done | NotReady | Partial | Disconnected | Error.

Definition is_Done (st : Status) : bool :=
  match st with Done => true | _ => false end.

Definition is_NotReady (st : Status) : bool :=
  match st with NotReady => true | _ => false end.

(** The cause left behind by a failed system call, as far as the status
    translation tells causes apart. *)
Inductive OsError : Type := WouldBlock | ConnectionLost | OtherFailure.

(** Modelled from the spec: [priv::SocketImpl::getErrorStatus] is declared in
    SocketImpl.hpp and defined outside this file.  The spec says that a failed
    call is translated to NotReady, Disconnected or Error depending on the
    underlying cause, with "would block / in progress" giving NotReady. *)
Definition getErrorStatus (e : OsError) : Status :=
  match e with
  | WouldBlock => NotReady
  | ConnectionLost => Disconnected
  | OtherFailure => Error
  end.

(** ** The transport under the socket

    The system calls the file uses, as functions of the operating system's
    state [T].  A call returns the C return value (-1 on failure) and the
    next state; [os_errno] reads the cause of the last failure. *)

Class Transport (T : Type) : Type := {
  os_valid : T -> bool;                          (* handle != invalidSocket() *)
  os_errno : T -> OsError;
  os_create : T -> T;
  os_close : T -> T;
  os_setblocking : T -> bool -> T;
  os_connect : T -> Z -> Z -> Z * T;              (* ::connect(address, port) *)
  os_select_write : T -> Z -> Z -> Z * T;         (* select(write set, tv_sec, tv_usec) *)
  os_getpeername : T -> Z * Z * T;                (* return value, address *)
  os_send : T -> list byte -> Z * T;              (* ::send of the offered bytes *)
  os_recv : T -> Z -> Z * list byte * T;          (* recv: return value, bytes written *)
  (* POSIX contract of send on a stream socket: at most the offered bytes are
     taken, and a nonempty offer is never answered by 0. *)
  os_send_law : forall t bs r t',
      os_send t bs = (r, t') ->
      -1 <= r <= INT_MAX /\ r <= size bs /\ (bs <> [] -> r <> 0);
  (* POSIX contract of recv: at most the capacity is written, and exactly the
     returned number of bytes (none on failure or end of stream). *)
  os_recv_law : forall t cap r bs t',
      os_recv t cap = (r, bs, t') ->
      -1 <= r <= INT_MAX /\ (0 < r -> r <= cap) /\ length bs = Z.to_nat r
}.

(** One entry of the log, per system call or handle operation. *)
Inductive Call : Type :=
| CallCreate
| CallClose
| CallSetBlocking (blocking : bool)
| CallConnect (ret : Z)
| CallSelect (tv_sec tv_usec ret : Z)
| CallGetPeerName (ret : Z)
| CallSend (offered : list byte) (ret : Z) (e : OsError)
| CallRecv (cap ret : Z) (written : list byte) (e : OsError).

(** ** The objects *)

(** [TcpSocket::PendingPacket].  [Size] is the memory of the 32-bit size
    field, byte by byte, because the code fills it through a [char*]. *)
Record PendingPacket : Type := mkPending {
  Size : list byte;
  SizeReceived : Z;
  Data : list byte
}.

(** [PendingPacket()]: value-initialised. *)
Definition PendingPacket_init : PendingPacket :=
  mkPending [x00; x00; x00; x00] 0 [].

(** Modelled from the spec: the message collaborator ([sf::Packet], defined
    outside this file) exposes its payload bytes and the resume offset
    [m_sendPos] used by the send path. *)
Record Packet : Type := mkPacket {
  m_data : list byte;
  m_sendPos : Z
}.

(** Modelled from the spec: [Packet::clear] empties the payload. *)
Definition Packet_clear (p : Packet) : Packet := mkPacket [] (m_sendPos p).

(** Modelled from the spec: [Packet::onReceive] ingests a received payload. *)
Definition Packet_onReceive (p : Packet) (d : list byte) : Packet :=
  mkPacket (m_data p ++ d) (m_sendPos p).

(** Modelled from the spec: [Packet::onSend] exposes the payload. *)
Definition Packet_onSend (p : Packet) : list byte := m_data p.

Record TcpSocket (T : Type) : Type := mkSocket {
  os : T;
  calls : list Call;
  m_isBlocking : bool;
  m_pendingPacket : PendingPacket;
  m_blockToSendBuffer : list byte
}.

(** A pointer argument: null, or the address of a buffer. *)
Inductive Ptr (A : Type) : Type := NullPtr | Addr (a : A).
Arguments NullPtr {A}.

(** The bytes of [data + sent, data + sz). *)
Definition range (data : list byte) (sent sz : Z) : list byte :=
  firstn (Z.to_nat (sz - sent)) (skipn (Z.to_nat sent) data).

Section Socket.

Context {T : Type} `{Transport T}.

Local Abbreviation Sock := (TcpSocket T).

Definition with_os (s : Sock) (t : T) (c : Call) : Sock :=
  mkSocket t (calls s ++ [c]) (m_isBlocking s) (m_pendingPacket s)
           (m_blockToSendBuffer s).

Definition set_pending (s : Sock) (p : PendingPacket) : Sock :=
  mkSocket (os s) (calls s) (m_isBlocking s) p (m_blockToSendBuffer s).

Definition set_block (s : Sock) (b : list byte) : Sock :=
  mkSocket (os s) (calls s) (m_isBlocking s) (m_pendingPacket s) b.

(** *** System calls, logged *)

Definition sys_connect (s : Sock) (address port : Z) : Z * Sock :=
  let '(r, t) := os_connect (os s) address port in
  (r, with_os s t (CallConnect r)).

Definition sys_select_write (s : Sock) (tv_sec tv_usec : Z) : Z * Sock :=
  let '(r, t) := os_select_write (os s) tv_sec tv_usec in
  (r, with_os s t (CallSelect tv_sec tv_usec r)).

Definition sys_getpeername (s : Sock) : Z * Z * Sock :=
  let '(r, a, t) := os_getpeername (os s) in
  (r, a, with_os s t (CallGetPeerName r)).

Definition sys_send (s : Sock) (bs : list byte) : Z * Sock :=
  let '(r, t) := os_send (os s) bs in
  (r, with_os s t (CallSend bs r (os_errno t))).

Definition sys_recv (s : Sock) (cap : Z) : Z * list byte * Sock :=
  let '(r, bs, t) := os_recv (os s) cap in
  (r, bs, with_os s t (CallRecv cap r bs (os_errno t))).

(** *** The [Socket] base class

    Socket.cpp is outside this file.  The spec lists [create], [close],
    [setBlocking] and [isBlocking] on the handle, with the blocking mode a
    boolean of the connection. *)

(** Modelled from the spec: [Socket::isBlocking] reads the blocking mode of
    the connection. *)
Definition isBlocking (s : Sock) : bool := m_isBlocking s.

(** Modelled from the spec: [Socket::setBlocking] sets the blocking mode of
    the connection and of the handle. *)
Definition setBlocking (s : Sock) (blocking : bool) : Sock :=
  mkSocket (os_setblocking (os s) blocking)
           (calls s ++ [CallSetBlocking blocking])
           blocking (m_pendingPacket s) (m_blockToSendBuffer s).

(** Modelled from the spec: [Socket::create] allocates the handle; the
    blocking mode of the connection is not its concern. *)
Definition create (s : Sock) : Sock := with_os s (os_create (os s)) CallCreate.

(** Modelled from the spec: [Socket::close] closes the handle. *)
Definition close (s : Sock) : Sock := with_os s (os_close (os s)) CallClose.

(** *** [TcpSocket::getRemoteAddress] *)

Definition getRemoteAddress (s : Sock) : option Z * Sock :=
  if os_valid (os s) then
    let '(r, a, s1) := sys_getpeername s in
    if negb (r =? -1) then (Some a, s1) else (None, s1)
  else (None, s).

(** *** [TcpSocket::disconnect] *)

Definition disconnect (s : Sock) : Sock :=
  set_pending (close s) PendingPacket_init.

(** *** [TcpSocket::connect] *)

Definition connect (s : Sock) (remoteAddress remotePort timeout : Z)
  : Status * Sock :=
  let s := disconnect s in
  let s := create s in
  if timeout <=? 0 then
    let '(r, s) := sys_connect s remoteAddress remotePort in
    if r =? -1 then (getErrorStatus (os_errno (os s)), s)
    else (Done, s)
  else
    let blocking := isBlocking s in
    let s := if blocking then setBlocking s false else s in
    let '(r, s) := sys_connect s remoteAddress remotePort in
    if r >=? 0 then (Done, setBlocking s blocking)
    else
      let status := getErrorStatus (os_errno (os s)) in
      if negb blocking then (status, s)
      else
        let '(status, s) :=
          if is_NotReady status then
            let tv_sec := to_long (Z.quot timeout 1000000) in
            let tv_usec := to_int (Z.rem timeout 1000000) in
            let '(r, s) := sys_select_write s tv_sec tv_usec in
            if r >? 0 then
              let '(a, s) := getRemoteAddress s in
              match a with
              | Some _ => (Done, s)
              | None => (getErrorStatus (os_errno (os s)), s)
              end
            else (getErrorStatus (os_errno (os s)), s)
          else (status, s) in
        (status, setBlocking s true).

(** *** [TcpSocket::receive(void*, std::size_t, std::size_t&)]

    Returns the status, [received], and the bytes the call wrote at [data]. *)

Definition receive (s : Sock) (data : Ptr unit) (sz : Z)
  : Status * Z * list byte * Sock :=
  let received := 0 in
  match data with
  | NullPtr => (Error, received, [], s)
  | Addr _ =>
    let '(r, written, s) := sys_recv s sz in
    let sizeReceived := to_int r in
    if sizeReceived >? 0 then (Done, sizeReceived, written, s)
    else if sizeReceived =? 0 then (Disconnected, received, written, s)
    else (getErrorStatus (os_errno (os s)), received, written, s)
  end.

(** *** [TcpSocket::send(const std::byte*, std::size_t, std::size_t&)]

    [data] is the memory from the pointer on; the loop offers the range
    [data + sent, data + size) to the transport.  [sent] is a variable of the
    caller, passed by reference: [send] takes what it holds at the call and
    returns the status with what it holds at the return.  The parameter
    check (lines 240-244) returns before the loop assigns it (line 248), so
    on that path it is left as it was.  The loop is written with fuel;
    [send] gives it one unit per byte to send, which is always enough (lemma
    [send_run]). *)

(** A [std::size_t] variable of the caller: declared without a value
    ([std::size_t sent;], lines 230 and 350), or holding one. *)
Inductive SizeVar : Type :=
| Unassigned
| Assigned (v : Z).

Fixpoint send_loop (fuel : nat) (s : Sock) (data : list byte) (sz sent : Z)
  : option (Status * Z * Sock) :=
  if sent <? sz then
    match fuel with
    | O => None
    | S fuel =>
      let '(r, s) := sys_send s (range data sent sz) in
      let result := to_int r in
      if result <? 0 then
        let status := getErrorStatus (os_errno (os s)) in
        if is_NotReady status && negb (sent =? 0) then Some (Partial, sent, s)
        else Some (status, sent, s)
      else send_loop fuel s data sz (sent + result)
    end
  else Some (Done, sent, s).

Definition send (s : Sock) (data : Ptr (list byte)) (sz : Z) (sent : SizeVar)
  : option (Status * SizeVar * Sock) :=
  match data with
  | NullPtr => Some (Error, sent, s)
  | Addr d =>
    if sz =? 0 then Some (Error, sent, s)
    else
      match send_loop (Z.to_nat sz) s d sz 0 with
      | Some (status, sent, s) => Some (status, Assigned sent, s)
      | None => None
      end
  end.

(** [a - b] on [std::size_t], for [a] and [b] that are values of the type:
    the difference wraps around when [b] is the larger. *)
Definition size_t_sub (a b : Z) : Z :=
  if a <? b then a - b + 18446744073709551616 else a - b.

(** [htonl] followed by the [memcpy] of the 32-bit value: the four bytes in
    network order. *)
Definition byte_of_Z (z : Z) : byte :=
  match Byte.of_N (Z.to_N (z mod 256)) with
  | Some b => b
  | None => x00
  end.

Definition htonl_bytes (v : Z) : list byte :=
  [byte_of_Z (v / 16777216); byte_of_Z (v / 65536); byte_of_Z (v / 256);
   byte_of_Z v].

(** [ntohl] of the 32-bit value whose memory is the given bytes. *)
Definition Z_of_byte (b : byte) : Z := Z.of_N (Byte.to_N b).

Definition ntohl_bytes (m : list byte) : Z :=
  Z_of_byte (nth 0 m x00) * 16777216 + Z_of_byte (nth 1 m x00) * 65536
  + Z_of_byte (nth 2 m x00) * 256 + Z_of_byte (nth 3 m x00).

(** *** [TcpSocket::send(Packet&)]

    The local [sent] is declared without a value (line 350) and read on
    Partial only (line 360), which [send] returns after the loop has
    assigned it.  The model has no result for a read of a variable that
    holds no value; [send_packet_run] shows that there is none.  The
    length handed to [send] is a difference on [std::size_t] (line 352): with
    an offset past the end of the block it wraps around, and the pointer is
    past the buffer; the lemmas below take the offset inside the block. *)

Definition send_packet (s : Sock) (packet : Packet)
  : option (Status * Sock * Packet) :=
  let data := Packet_onSend packet in
  let sz := size data in
  let packetSize := htonl_bytes (to_uint32 sz) in
  (* resize, then the two memcpy *)
  let block := packetSize ++ (if sz >? 0 then data else []) in
  let s := set_block s block in
  match send s (Addr (skipn (Z.to_nat (m_sendPos packet)) block))
             (size_t_sub (size block) (m_sendPos packet)) Unassigned with
  | None => None
  | Some (status, sent, s) =>
    match status with
    | Partial =>
      match sent with
      | Assigned sent =>
        Some (status, s, mkPacket (m_data packet) (m_sendPos packet + sent))
      | Unassigned => None
      end
    | Done => Some (status, s, mkPacket (m_data packet) 0)
    | _ => Some (status, s, packet)
    end
  end.

(** *** [TcpSocket::receive(Packet&)] *)

(** How a loop of the function ends: by a [return] of the function, or by
    its condition turning false. *)
Inductive LoopExit : Type := Returned (st : Status) | Completed.

(** Writing [bs] into the memory [m] from offset [off] on. *)
Definition write_at (off : Z) (bs m : list byte) : list byte :=
  firstn (Z.to_nat off) m ++ bs
  ++ skipn (Z.to_nat off + length bs) m.

(** The loop over the size field (lines 384-392).  Both loops of the
    function are written with fuel; [receive_packet] gives each one unit per
    byte still missing, which is always enough (lemma [receive_packet_run]). *)
Fixpoint receive_size (fuel : nat) (s : Sock) : option (LoopExit * Sock) :=
  let p := m_pendingPacket s in
  if SizeReceived p <? 4 then
    match fuel with
    | O => None
    | S fuel =>
      let '(status, received, written, s) :=
        receive s (Addr tt) (4 - SizeReceived p) in
      let s := set_pending s
        (mkPending (write_at (SizeReceived p) written (Size p))
                   (SizeReceived p + received) (Data p)) in
      if negb (is_Done status) then Some (Returned status, s)
      else receive_size fuel s
    end
  else Some (Completed, s).

(** The loop over the packet data (lines 405-420). *)
Fixpoint receive_data (fuel : nat) (s : Sock) (packetSize : Z)
  : option (LoopExit * Sock) :=
  let p := m_pendingPacket s in
  if size (Data p) <? packetSize then
    match fuel with
    | O => None
    | S fuel =>
      let sizeToGet := Z.min (packetSize - size (Data p)) 1024 in
      let '(status, received, buffer, s) := receive s (Addr tt) sizeToGet in
      if negb (is_Done status) then Some (Returned status, s)
      else
        let s :=
          if received >? 0 then
            set_pending s (mkPending (Size p) (SizeReceived p)
                             (Data p ++ firstn (Z.to_nat received) buffer))
          else s in
        receive_data fuel s packetSize
    end
  else Some (Completed, s).

(** The first part of the function: the size of the incoming packet. *)
Definition receive_header (s : Sock) : option (LoopExit * Sock) :=
  if SizeReceived (m_pendingPacket s) <? 4 then
    receive_size (Z.to_nat (4 - SizeReceived (m_pendingPacket s))) s
  else Some (Completed, s).

Definition receive_packet (s : Sock) (packet : Packet)
  : option (Status * Sock * Packet) :=
  let packet := Packet_clear packet in
  match receive_header s with
  | None => None
  | Some (Returned status, s) => Some (status, s, packet)
  | Some (Completed, s) =>
    let packetSize := ntohl_bytes (Size (m_pendingPacket s)) in
    match receive_data (Z.to_nat (packetSize - size (Data (m_pendingPacket s))))
                       s packetSize with
    | None => None
    | Some (Returned status, s) => Some (status, s, packet)
    | Some (Completed, s) =>
      let d := Data (m_pendingPacket s) in
      let packet :=
        match d with
        | [] => packet
        | _ :: _ => Packet_onReceive packet d
        end in
      Some (Done, set_pending s PendingPacket_init, packet)
    end
  end.

End Socket.

(** ** A mock transport: a pipe with a fragmentation schedule

    The bytes a sender's calls hand over accumulate on [wire]; a receiver's
    calls consume [incoming].  Each call follows the next event of the
    schedule: it transfers at most a given number of bytes (at least one is
    allowed), or it fails with "would block".  With the schedule used up a
    call transfers as much as it can.  A single call never transfers more
    than [MAX_RW_COUNT] bytes, as on Linux. *)

Inductive Event : Type := Chunk (k : nat) | Block.

(** What the connection attempt of the mock does. *)
Record ConnectScript : Type := mkScript {
  connect_ret : Z;  connect_err : OsError;
  select_ret : Z;   select_err : OsError;
  peer_ret : Z;     peer_err : OsError
}.

Record Pipe : Type := mkPipe {
  wire : list byte;
  incoming : list byte;
  schedule : list Event;
  last_error : OsError;
  handle_valid : bool;
  os_blocking : bool;
  script : ConnectScript
}.

Definition MAX_RW_COUNT : Z := 2147479552.

(** How many bytes the next call may move, out of [avail]. *)
Definition quota (sch : list Event) (avail : Z) : Z :=
  match sch with
  | Chunk k :: _ => Z.min (Z.of_nat (S k)) (Z.min avail MAX_RW_COUNT)
  | _ => Z.min avail MAX_RW_COUNT
  end.

Definition pipe_fail (p : Pipe) (e : OsError) : Pipe :=
  mkPipe (wire p) (incoming p) (tl (schedule p)) e (handle_valid p)
         (os_blocking p) (script p).

Definition pipe_send (p : Pipe) (bs : list byte) : Z * Pipe :=
  match schedule p with
  | Block :: _ => (-1, pipe_fail p WouldBlock)
  | _ =>
    let out := firstn (Z.to_nat (quota (schedule p) (size bs))) bs in
    (size out,
     mkPipe (wire p ++ out) (incoming p) (tl (schedule p)) (last_error p)
            (handle_valid p) (os_blocking p) (script p))
  end.

Definition pipe_recv (p : Pipe) (cap : Z) : Z * list byte * Pipe :=
  match schedule p with
  | Block :: _ => (-1, [], pipe_fail p WouldBlock)
  | _ =>
    let n := Z.to_nat (quota (schedule p) (Z.min cap (size (incoming p)))) in
    let out := firstn n (incoming p) in
    (size out, out,
     mkPipe (wire p) (skipn n (incoming p)) (tl (schedule p)) (last_error p)
            (handle_valid p) (os_blocking p) (script p))
  end.

Definition pipe_set_error (p : Pipe) (r : Z) (e : OsError) : Pipe :=
  mkPipe (wire p) (incoming p) (schedule p)
         (if r <? 0 then e else last_error p)
         (handle_valid p) (os_blocking p) (script p).

Definition pipe_connect (p : Pipe) (address port : Z) : Z * Pipe :=
  (connect_ret (script p),
   pipe_set_error p (connect_ret (script p)) (connect_err (script p))).

Definition pipe_select (p : Pipe) (tv_sec tv_usec : Z) : Z * Pipe :=
  (select_ret (script p),
   pipe_set_error p (select_ret (script p)) (select_err (script p))).

Definition pipe_getpeername (p : Pipe) : Z * Z * Pipe :=
  (peer_ret (script p), 0,
   pipe_set_error p (peer_ret (script p)) (peer_err (script p))).

Definition pipe_handle (p : Pipe) (v : bool) : Pipe :=
  mkPipe (wire p) (incoming p) (schedule p) (last_error p) v
         (os_blocking p) (script p).

Definition pipe_setblocking (p : Pipe) (b : bool) : Pipe :=
  mkPipe (wire p) (incoming p) (schedule p) (last_error p) (handle_valid p)
         b (script p).

Lemma size_nonneg (l : list byte) : 0 <= size l.
Proof. unfold size. lia. Qed.

Lemma quota_bounds (sch : list Event) (avail : Z) :
  quota sch avail <= avail /\ quota sch avail <= MAX_RW_COUNT
  /\ (0 < avail -> 0 < quota sch avail).
Proof.
  unfold quota, MAX_RW_COUNT. destruct sch as [|[k|] sch]; lia.
Qed.

Lemma pipe_send_law (p : Pipe) (bs : list byte) (r : Z) (p' : Pipe) :
  pipe_send p bs = (r, p') ->
  -1 <= r <= INT_MAX /\ r <= size bs /\ (bs <> [] -> r <> 0).
Proof.
  unfold pipe_send. intros Hs.
  assert (Hq := quota_bounds (schedule p) (size bs)).
  assert (Hb := size_nonneg bs).
  assert (Hne : bs <> [] -> 0 < size bs).
  { destruct bs; [congruence | unfold size; simpl; lia]. }
  remember (quota (schedule p) (size bs)) as q eqn:Eq. clear Eq.
  assert (Hr : size (firstn (Z.to_nat q) bs) = Z.max 0 q).
  { unfold size. rewrite length_firstn. unfold size in *. lia. }
  unfold INT_MAX, MAX_RW_COUNT in *.
  destruct (schedule p) as [|[k|] sch]; inversion Hs; subst; clear Hs.
  all: try rewrite Hr.
  all: repeat split; intros; try lia.
  all: specialize (Hne ltac:(assumption)); lia.
Qed.

Lemma pipe_recv_law (p : Pipe) (cap r : Z) (bs : list byte) (p' : Pipe) :
  pipe_recv p cap = (r, bs, p') ->
  -1 <= r <= INT_MAX /\ (0 < r -> r <= cap) /\ length bs = Z.to_nat r.
Proof.
  unfold pipe_recv. intros Hs.
  assert (Hq := quota_bounds (schedule p) (Z.min cap (size (incoming p)))).
  assert (Hb := size_nonneg (incoming p)).
  remember (quota (schedule p) (Z.min cap (size (incoming p)))) as q eqn:Eq.
  clear Eq.
  assert (Hr : size (firstn (Z.to_nat q) (incoming p)) = Z.max 0 q).
  { unfold size. rewrite length_firstn. unfold size in *. lia. }
  unfold INT_MAX, MAX_RW_COUNT in *.
  destruct (schedule p) as [|[k|] sch]; inversion Hs; subst; clear Hs.
  all: try rewrite Hr.
  all: repeat split; simpl; intros; try lia.
  all: unfold size in Hr; lia.
Qed.

#[export] Instance Pipe_Transport : Transport Pipe := {
  os_valid := handle_valid;
  os_errno := last_error;
  os_create := fun p => pipe_handle p true;
  os_close := fun p => pipe_handle p false;
  os_setblocking := pipe_setblocking;
  os_connect := pipe_connect;
  os_select_write := pipe_select;
  os_getpeername := pipe_getpeername;
  os_send := pipe_send;
  os_recv := pipe_recv;
  os_send_law := pipe_send_law;
  os_recv_law := pipe_recv_law
}.

(** A script under which the connection attempt succeeds at once. *)
Definition connects_at_once : ConnectScript :=
  mkScript 0 OtherFailure 1 OtherFailure 0 OtherFailure.

(** A fresh socket object on a pipe carrying [stream] to the receiver. *)
Definition pipe_socket (stream : list byte) (sch : list Event)
  : TcpSocket Pipe :=
  mkSocket (mkPipe [] stream sch OtherFailure true true connects_at_once)
           [] true PendingPacket_init [].

(** *** The code on the pipe, run *)

(** What a caller sees of a call of [receive]. *)
Definition chunk_result (r : Status * Z * list byte * TcpSocket Pipe)
  : Status * Z * list byte :=
  let '(st, received, written, _) := r in (st, received, written).

Example receive_some :
  chunk_result (receive (pipe_socket [x01; x02; x03] []) (Addr tt) 2)
  = (Done, 2, [x01; x02]).
Proof. reflexivity. Qed.

Example receive_end_of_stream :
  chunk_result (receive (pipe_socket [] []) (Addr tt) 2)
  = (Disconnected, 0, []).
Proof. reflexivity. Qed.

Example receive_would_block :
  chunk_result (receive (pipe_socket [x01] [Block]) (Addr tt) 2)
  = (NotReady, 0, []).
Proof. reflexivity. Qed.

(** What a caller sees of a call on a packet, with the pending packet and
    the bytes the pipe holds. *)
Definition packet_result (r : option (Status * TcpSocket Pipe * Packet))
  : option (Status * PendingPacket * Packet * list byte * list byte) :=
  match r with
  | Some (st, s, packet) =>
    Some (st, m_pendingPacket s, packet, wire (os s), incoming (os s))
  | None => None
  end.

(** Three bytes of the size arrive, then the transport would block: the
    call returns NotReady with the three bytes kept. *)
Example receive_packet_blocked :
  packet_result
    (receive_packet
       (pipe_socket [x00; x00; x01; x02; x0a; x0b] [Chunk 1; Chunk 0; Block])
       (mkPacket [x07] 0))
  = Some (NotReady, mkPending [x00; x00; x01; x00] 3 [], mkPacket [] 0,
          [], [x02; x0a; x0b]).
Proof. reflexivity. Qed.

(** A packet of two bytes, received in one call of the function over four
    calls of the transport; the byte behind it stays in flight. *)
Example receive_packet_whole :
  packet_result
    (receive_packet
       (pipe_socket [x00; x00; x00; x02; x0a; x0b; x0c]
                    [Chunk 1; Chunk 2; Chunk 0; Chunk 0])
       (mkPacket [x07] 0))
  = Some (Done, PendingPacket_init, mkPacket [x0a; x0b] 0, [], [x0c]).
Proof. reflexivity. Qed.

(** The transport takes three bytes of the block and then would block: the
    call returns Partial with the resume offset at 3. *)
Example send_packet_partial :
  packet_result
    (send_packet (pipe_socket [] [Chunk 1; Chunk 0; Block])
                 (mkPacket [x0a; x0b; x0c] 0))
  = Some (Partial, PendingPacket_init, mkPacket [x0a; x0b; x0c] 3,
          [x00; x00; x00], []).
Proof. reflexivity. Qed.

(** The transport would block at once: NotReady, the offset stays. *)
Example send_packet_not_ready :
  packet_result
    (send_packet (pipe_socket [] [Block]) (mkPacket [x0a; x0b; x0c] 0))
  = Some (NotReady, PendingPacket_init, mkPacket [x0a; x0b; x0c] 0, [], []).
Proof. reflexivity. Qed.

(** ** Raw receive *)

Lemma to_int_id (z : Z) : -2147483648 <= z <= INT_MAX -> to_int z = z.
Proof.
  unfold to_int, INT_MAX. intros Hz.
  rewrite Z.mod_small by lia. lia.
Qed.

Lemma getErrorStatus_range (e : OsError) :
  getErrorStatus e = NotReady \/ getErrorStatus e = Disconnected
  \/ getErrorStatus e = Error.
Proof. destruct e; simpl; auto. Qed.

Lemma getErrorStatus_not_Done (e : OsError) : getErrorStatus e <> Done.
Proof. destruct e; discriminate. Qed.

Section RawReceive.

Context {T : Type} `{Transport T}.

(** Everything one call of [receive] on a real buffer does. *)
Lemma receive_inv (s : TcpSocket T) (a : unit) (sz : Z) st rcv wr s' :
  receive s (Addr a) sz = (st, rcv, wr, s') ->
  exists r t',
    os_recv (os s) sz = (r, wr, t')
    /\ s' = with_os s t' (CallRecv sz r wr (os_errno t'))
    /\ -1 <= r <= INT_MAX /\ (0 < r -> r <= sz) /\ length wr = Z.to_nat r
    /\ ((0 < r /\ st = Done /\ rcv = r)
        \/ (r = 0 /\ st = Disconnected /\ rcv = 0)
        \/ (r = -1 /\ st = getErrorStatus (os_errno t') /\ rcv = 0)).
Proof.
  unfold receive, sys_recv.
  destruct (os_recv (os s) sz) as [[r bs] t'] eqn:E.
  destruct (os_recv_law _ _ E) as (Hr & Hcap & Hlen).
  rewrite to_int_id by (unfold INT_MAX in *; lia).
  intros Hrecv. exists r, t'.
  destruct (Z.gtb_spec r 0) as [Hpos|Hpos].
  - inversion Hrecv; subst. repeat split; try lia; auto.
  - destruct (Z.eqb_spec r 0) as [Hz|Hz]; inversion Hrecv; subst;
      repeat split; try lia; auto.
    right; right. simpl. repeat split; lia.
Qed.

End RawReceive.

(** C6, as the code has it: with a null buffer [receive] returns Error and
    calls nothing; with a real buffer it makes exactly one transport receive
    call, the call [os_recv] of the transport in the state it is in with the
    capacity it was given, leaves the transport in the state after that
    call, and maps the return of that call: a positive return to Done with
    that count, a zero return to Disconnected, and a failure to the status
    translated from the error the transport then holds (NotReady,
    Disconnected or Error), the last two with zero bytes reported. *)
Theorem receive_status_mapping :
  forall (T : Type) (TR : Transport T) (s : TcpSocket T) (sz : Z),
    receive s NullPtr sz = (Error, 0, [], s)
    /\ forall a, exists st rcv wr s' r t',
        os_recv (os s) sz = (r, wr, t')
        /\ receive s (Addr a) sz = (st, rcv, wr, s')
        /\ os s' = t'
        /\ calls s' = calls s ++ [CallRecv sz r wr (os_errno t')]
        /\ m_pendingPacket s' = m_pendingPacket s
        /\ (0 < r -> st = Done /\ rcv = r)
        /\ (r = 0 -> st = Disconnected /\ rcv = 0)
        /\ (r < 0 ->
            st = getErrorStatus (os_errno t') /\ rcv = 0
            /\ (st = NotReady \/ st = Disconnected \/ st = Error)).
Proof.
  intros T TR s sz. split; [reflexivity|].
  intros a.
  destruct (receive s (Addr a) sz) as [[[st rcv] wr] s'] eqn:Hrecv.
  destruct (receive_inv _ _ _ Hrecv)
    as (r & t' & Hos & -> & Hr & _ & _ & Hcase).
  eexists st, rcv, wr, _, r, t'.
  split; [exact Hos|]. do 4 (split; [reflexivity|]).
  pose proof (getErrorStatus_range (os_errno t')) as Hrange.
  destruct Hcase as [(? & -> & ->) | [(? & -> & ->) | (? & -> & ->)]];
    repeat split; intros; auto; lia.
Qed.

(** The claim C6 says that every invocation makes exactly one transport call;
    an invocation with a null buffer makes none and returns Error. *)
Lemma receive_null_makes_no_call :
  let s := pipe_socket [x01; x02] [] in
  let '(st, _, _, s') := receive s NullPtr 16 in
  st = Error /\ calls s' = calls s
  /\ ~ (exists c, calls s' = calls s ++ [c]).
Proof.
  simpl. repeat split. intros [c Hc]. discriminate Hc.
Qed.

(** C10: a capacity of 0 is not rejected.  With a real buffer the transport
    receive call is still made: the call [os_recv] of the transport in the
    state it is in, with capacity 0, and the transport is left in the state
    after that call.  Nothing is received, the result is never Done, a zero
    return of that call is reported as Disconnected and a failure as the
    status translated from the error; only the null buffer is refused
    without a call.  On the mock pipe this happens while bytes are still in
    flight from a peer that has not closed. *)
Theorem receive_zero_capacity :
  forall (T : Type) (TR : Transport T) (s : TcpSocket T),
    (forall a, exists st rcv wr s' r t',
        os_recv (os s) 0 = (r, wr, t')
        /\ receive s (Addr a) 0 = (st, rcv, wr, s')
        /\ os s' = t'
        /\ calls s' = calls s ++ [CallRecv 0 r wr (os_errno t')]
        /\ r <= 0 /\ wr = [] /\ rcv = 0 /\ st <> Done
        /\ (r = 0 -> st = Disconnected)
        /\ (r < 0 -> st = getErrorStatus (os_errno t')))
    /\ (forall sz, receive s NullPtr sz = (Error, 0, [], s))
    /\ (let p := pipe_socket [x01; x02] [] in
        let '(st, rcv, _, p') := receive p (Addr tt) 0 in
        st = Disconnected /\ rcv = 0 /\ incoming (os p') = [x01; x02]
        /\ calls p' = [CallRecv 0 0 [] (os_errno (os p'))]).
Proof.
  intros T TR s. split; [|split; [reflexivity | simpl; auto]].
  intros a.
  destruct (receive s (Addr a) 0) as [[[st rcv] wr] s'] eqn:Hrecv.
  destruct (receive_inv _ _ _ Hrecv)
    as (r & t' & Hos & -> & Hr & Hcap & Hlen & Hcase).
  eexists st, rcv, wr, _, r, t'.
  split; [exact Hos|]. do 3 (split; [reflexivity|]).
  assert (Hle : r <= 0) by lia.
  assert (Hwr : wr = []).
  { destruct wr; [reflexivity | simpl in Hlen; lia]. }
  pose proof (getErrorStatus_not_Done (os_errno t')) as Hnd.
  destruct Hcase as [(? & -> & ->) | [(? & -> & ->) | (? & -> & ->)]];
    repeat split; intros; auto; try lia; try discriminate.
Qed.

(** ** The reassembly state machine

    What the two loops of [receive(Packet&)] do to the pending packet, chunk
    by chunk, as read off the log of transport calls. *)

(** The capacity the next chunk is asked with. *)
Definition chunk_capacity (p : PendingPacket) : Z :=
  if SizeReceived p <? 4 then 4 - SizeReceived p
  else Z.min (ntohl_bytes (Size p) - size (Data p)) 1024.

(** The pending packet after a chunk of bytes received with Done. *)
Definition absorb (p : PendingPacket) (bs : list byte) : PendingPacket :=
  if SizeReceived p <? 4 then
    mkPending (write_at (SizeReceived p) bs (Size p))
              (SizeReceived p + size bs) (Data p)
  else mkPending (Size p) (SizeReceived p) (Data p ++ bs).

(** Nothing is left to receive for the current packet. *)
Definition complete (p : PendingPacket) : Prop :=
  4 <= SizeReceived p /\ ntohl_bytes (Size p) <= size (Data p).

(** [absorbs p cs p']: the calls [cs] are chunk receives that all returned
    Done, each asked with the capacity of the state it found, and they take
    the pending packet from [p] to [p']. *)
Inductive absorbs : PendingPacket -> list Call -> PendingPacket -> Prop :=
| absorbs_nil p : absorbs p [] p
| absorbs_cons p r w e cs p' :
    0 < r <= chunk_capacity p ->
    size w = r ->
    absorbs (absorb p w) cs p' ->
    absorbs p (CallRecv (chunk_capacity p) r w e :: cs) p'.

(** A chunk receive asked with [cap] that did not return Done, and the
    status it returned. *)
Definition failed_recv (cap : Z) (st : Status) (c : Call) : Prop :=
  exists r e,
    c = CallRecv cap r [] e
    /\ ((r = 0 /\ st = Disconnected) \/ (r = -1 /\ st = getErrorStatus e)).

Section Reassembly.

Context {T : Type} `{Transport T}.

(** [os_run t cs t']: the transport goes from [t] to [t'] by exactly the
    send and receive calls [cs], with the logged results. *)
Inductive os_run : T -> list Call -> T -> Prop :=
| os_run_nil t : os_run t [] t
| os_run_recv t cap r w t' cs t'' :
    os_recv t cap = (r, w, t') ->
    os_run t' cs t'' ->
    os_run t (CallRecv cap r w (os_errno t') :: cs) t''
| os_run_send t bs r t' cs t'' :
    os_send t bs = (r, t') ->
    os_run t' cs t'' ->
    os_run t (CallSend bs r (os_errno t') :: cs) t''.

Lemma os_run_app t cs t' cs' t'' :
  os_run t cs t' -> os_run t' cs' t'' -> os_run t (cs ++ cs') t''.
Proof.
  induction 1; intros Hrest; simpl; [assumption | |];
    econstructor; eauto.
Qed.

Lemma absorbs_app p cs p' cs' p'' :
  absorbs p cs p' -> absorbs p' cs' p'' -> absorbs p (cs ++ cs') p''.
Proof.
  induction 1; intros Hrest; simpl; [assumption|].
  constructor; auto.
Qed.

Lemma write_at_nil (off : Z) (m : list byte) : write_at off [] m = m.
Proof.
  unfold write_at. simpl. rewrite Nat.add_0_r. apply firstn_skipn.
Qed.

Lemma pending_eta (p : PendingPacket) :
  mkPending (Size p) (SizeReceived p) (Data p) = p.
Proof. destruct p; reflexivity. Qed.

Lemma size_written (w : list byte) (r : Z) :
  length w = Z.to_nat r -> 0 <= r -> size w = r.
Proof. unfold size. lia. Qed.

(** What a run of a loop leaves behind, common to both loops: the calls
    logged, the transport, the pending packet, and the rest untouched. *)
Definition loop_run (s s' : TcpSocket T) (cs tail : list Call) : Prop :=
  calls s' = calls s ++ cs ++ tail
  /\ os_run (os s) (cs ++ tail) (os s')
  /\ absorbs (m_pendingPacket s) cs (m_pendingPacket s')
  /\ m_isBlocking s' = m_isBlocking s
  /\ m_blockToSendBuffer s' = m_blockToSendBuffer s.

Definition loop_exit (ex : LoopExit) (s' : TcpSocket T) (tail : list Call)
  : Prop :=
  match ex with
  | Completed => tail = []
  | Returned st =>
    exists c, tail = [c]
              /\ failed_recv (chunk_capacity (m_pendingPacket s')) st c
  end.

Lemma loop_run_refl (s : TcpSocket T) : loop_run s s [] [].
Proof.
  unfold loop_run. simpl. rewrite app_nil_r.
  repeat split; constructor.
Qed.

(** One Done chunk, then the rest of the run. *)
Lemma loop_run_step (s s' : TcpSocket T) r w t' cs tail :
  let p := m_pendingPacket s in
  os_recv (os s) (chunk_capacity p) = (r, w, t') ->
  0 < r <= chunk_capacity p ->
  size w = r ->
  loop_run (set_pending
              (with_os s t' (CallRecv (chunk_capacity p) r w (os_errno t')))
              (absorb p w)) s' cs tail ->
  loop_run s s' (CallRecv (chunk_capacity p) r w (os_errno t') :: cs) tail.
Proof.
  intros p Hos Hr Hw (Hc & Ho & Ha & Hb & Hk). simpl in *.
  unfold loop_run. repeat split; auto.
  - rewrite Hc, <- app_assoc. reflexivity.
  - simpl. econstructor; eauto.
  - constructor; auto.
Qed.

(** One chunk that did not return Done ends the run where it stands. *)
Lemma loop_run_fail (s : TcpSocket T) r w t' st :
  let p := m_pendingPacket s in
  let c := CallRecv (chunk_capacity p) r w (os_errno t') in
  os_recv (os s) (chunk_capacity p) = (r, w, t') ->
  w = [] ->
  (r = 0 /\ st = Disconnected) \/ (r = -1 /\ st = getErrorStatus (os_errno t')) ->
  loop_run s (with_os s t' c) [] [c]
  /\ loop_exit (Returned st) (with_os s t' c) [c].
Proof.
  intros p c Hos -> Hst. split.
  - unfold loop_run. simpl. repeat split; auto.
    + econstructor; [eassumption | constructor].
    + constructor.
  - simpl. exists c. split; [reflexivity|].
    exists r, (os_errno t'). split; [reflexivity | assumption].
Qed.

Lemma pending_set_pending (s : TcpSocket T) (p : PendingPacket) :
  m_pendingPacket (set_pending s p) = p.
Proof. reflexivity. Qed.

Lemma receive_size_S (fuel : nat) (s : TcpSocket T) :
  receive_size (S fuel) s =
  let p := m_pendingPacket s in
  if SizeReceived p <? 4 then
    let '(status, received, written, s1) :=
      receive s (Addr tt) (4 - SizeReceived p) in
    let s2 := set_pending s1
      (mkPending (write_at (SizeReceived p) written (Size p))
                 (SizeReceived p + received) (Data p)) in
    if negb (is_Done status) then Some (Returned status, s2)
    else receive_size fuel s2
  else Some (Completed, s).
Proof. reflexivity. Qed.

Lemma receive_size_stop (fuel : nat) (s : TcpSocket T) :
  4 <= SizeReceived (m_pendingPacket s) ->
  receive_size fuel s = Some (Completed, s).
Proof.
  intros Hge. destruct fuel; simpl;
    destruct (Z.ltb_spec (SizeReceived (m_pendingPacket s)) 4); auto; lia.
Qed.

Lemma chunk_capacity_size (p : PendingPacket) :
  SizeReceived p < 4 -> chunk_capacity p = 4 - SizeReceived p.
Proof.
  intros Hlt. unfold chunk_capacity.
  destruct (Z.ltb_spec (SizeReceived p) 4); [auto|lia].
Qed.

Lemma absorb_size (p : PendingPacket) (w : list byte) :
  SizeReceived p < 4 ->
  absorb p w = mkPending (write_at (SizeReceived p) w (Size p))
                         (SizeReceived p + size w) (Data p).
Proof.
  intros Hlt. unfold absorb.
  destruct (Z.ltb_spec (SizeReceived p) 4); [auto|lia].
Qed.

Lemma not_Done_negb (st : Status) : st <> Done -> negb (is_Done st) = true.
Proof. destruct st; auto; congruence. Qed.

(** The status and count of a chunk receive that did not return Done. *)
Lemma failed_chunk r (w : list byte) st rcv e :
  length w = Z.to_nat r ->
  (r = 0 /\ st = Disconnected /\ rcv = 0)
  \/ (r = -1 /\ st = getErrorStatus e /\ rcv = 0) ->
  w = [] /\ rcv = 0 /\ st <> Done
  /\ ((r = 0 /\ st = Disconnected) \/ (r = -1 /\ st = getErrorStatus e)).
Proof.
  intros Hlen [(-> & -> & ->)|(-> & -> & ->)];
    (split; [destruct w; [reflexivity | discriminate Hlen]|]);
    (split; [reflexivity|]);
    (split; [auto using getErrorStatus_not_Done; discriminate | auto]).
Qed.

Lemma receive_size_run (fuel : nat) :
  forall s : TcpSocket T,
    (Z.to_nat (4 - SizeReceived (m_pendingPacket s)) <= fuel)%nat ->
    exists ex s' cs tail,
      receive_size fuel s = Some (ex, s')
      /\ loop_run s s' cs tail /\ loop_exit ex s' tail
      /\ Data (m_pendingPacket s') = Data (m_pendingPacket s)
      /\ match ex with
         | Completed => 4 <= SizeReceived (m_pendingPacket s')
         | Returned _ => SizeReceived (m_pendingPacket s') < 4
         end.
Proof.
  induction fuel as [|fuel IH]; intros s Hfuel.
  - exists Completed, s, [], [].
    split; [apply receive_size_stop; lia|].
    split; [apply loop_run_refl|]. split; [reflexivity|]. split; [auto|lia].
  - destruct (Z.lt_ge_cases (SizeReceived (m_pendingPacket s)) 4) as [Hlt|Hge].
    2:{ exists Completed, s, [], [].
        split; [apply receive_size_stop; lia|].
        split; [apply loop_run_refl|]. split; [reflexivity|].
        split; [auto|lia]. }
    rewrite receive_size_S. cbv zeta.
    destruct (Z.ltb_spec (SizeReceived (m_pendingPacket s)) 4); [|lia].
    pose proof (chunk_capacity_size _ Hlt) as Hcap.
    destruct (receive s (Addr tt) (4 - SizeReceived (m_pendingPacket s)))
      as [[[st rcv] wr] s1] eqn:E.
    destruct (receive_inv _ _ _ E)
      as (r & t' & Hos & -> & Hr & Hle & Hlen & Hcase).
    rewrite <- Hcap in *.
    destruct Hcase as [(Hpos & -> & ->) | Hfail].
    + (* Done: the chunk is absorbed and the loop goes on *)
      assert (Hw : size wr = r) by (apply size_written; [auto | lia]).
      cbv beta iota. simpl negb. cbv iota.
      replace (mkPending _ _ _) with (absorb (m_pendingPacket s) wr)
        by (rewrite absorb_size, Hw by auto; reflexivity).
      match goal with |- context [receive_size fuel ?s2] =>
        destruct (IH s2) as (ex & s' & cs & tail & Heq & Hrun & Hex & HD & Hsz)
      end.
      { rewrite pending_set_pending, absorb_size by auto.
        cbn [SizeReceived]. lia. }
      rewrite Heq.
      rewrite pending_set_pending, absorb_size in HD by auto. cbn [Data] in HD.
      eexists ex, s', _, tail. split; [reflexivity|].
      split; [|repeat split; assumption].
      eapply loop_run_step; eauto.
    + (* not Done: the function returns, nothing absorbed *)
      destruct (@failed_chunk r wr st rcv _ Hlen Hfail) as (-> & -> & Hnd & Hst).
      cbv beta iota. rewrite (not_Done_negb Hnd).
      rewrite write_at_nil, Z.add_0_r, pending_eta.
      destruct (@loop_run_fail s r [] t' st) as (Hrun & Hex); auto.
      eexists (Returned st), _, [], _.
      split; [reflexivity|]. split; [exact Hrun|]. split; [exact Hex|].
      split; [reflexivity|]. simpl. exact Hlt.
Qed.

Lemma receive_data_S (fuel : nat) (s : TcpSocket T) (packetSize : Z) :
  receive_data (S fuel) s packetSize =
  let p := m_pendingPacket s in
  if size (Data p) <? packetSize then
    let sizeToGet := Z.min (packetSize - size (Data p)) 1024 in
    let '(status, received, buffer, s1) := receive s (Addr tt) sizeToGet in
    if negb (is_Done status) then Some (Returned status, s1)
    else
      let s2 :=
        if received >? 0 then
          set_pending s1 (mkPending (Size p) (SizeReceived p)
                            (Data p ++ firstn (Z.to_nat received) buffer))
        else s1 in
      receive_data fuel s2 packetSize
  else Some (Completed, s).
Proof. reflexivity. Qed.

Lemma receive_data_stop (fuel : nat) (s : TcpSocket T) (packetSize : Z) :
  packetSize <= size (Data (m_pendingPacket s)) ->
  receive_data fuel s packetSize = Some (Completed, s).
Proof.
  intros Hge. destruct fuel; simpl;
    destruct (Z.ltb_spec (size (Data (m_pendingPacket s))) packetSize);
    auto; lia.
Qed.

Lemma chunk_capacity_data (p : PendingPacket) :
  4 <= SizeReceived p ->
  chunk_capacity p = Z.min (ntohl_bytes (Size p) - size (Data p)) 1024.
Proof.
  intros Hge. unfold chunk_capacity.
  destruct (Z.ltb_spec (SizeReceived p) 4); [lia|auto].
Qed.

Lemma absorb_data (p : PendingPacket) (w : list byte) :
  4 <= SizeReceived p ->
  absorb p w = mkPending (Size p) (SizeReceived p) (Data p ++ w).
Proof.
  intros Hge. unfold absorb.
  destruct (Z.ltb_spec (SizeReceived p) 4); [lia|auto].
Qed.

Lemma size_app (a b : list byte) : size (a ++ b) = size a + size b.
Proof. unfold size. rewrite length_app. lia. Qed.

Lemma receive_data_run (fuel : nat) :
  forall (s : TcpSocket T) (packetSize : Z),
    let p := m_pendingPacket s in
    packetSize = ntohl_bytes (Size p) ->
    4 <= SizeReceived p ->
    (Z.to_nat (packetSize - size (Data p)) <= fuel)%nat ->
    exists ex s' cs tail,
      receive_data fuel s packetSize = Some (ex, s')
      /\ loop_run s s' cs tail /\ loop_exit ex s' tail
      /\ Size (m_pendingPacket s') = Size p
      /\ SizeReceived (m_pendingPacket s') = SizeReceived p
      /\ match ex with
         | Completed => packetSize <= size (Data (m_pendingPacket s'))
         | Returned _ => size (Data (m_pendingPacket s')) < packetSize
         end.
Proof.
  induction fuel as [|fuel IH]; intros s packetSize p Hps Hsr Hfuel; subst p.
  - exists Completed, s, [], [].
    split; [apply receive_data_stop; lia|].
    split; [apply loop_run_refl|]. repeat split; lia.
  - destruct (Z.lt_ge_cases (size (Data (m_pendingPacket s))) packetSize) as [Hlt|Hge].
    2:{ exists Completed, s, [], [].
        split; [apply receive_data_stop; lia|].
        split; [apply loop_run_refl|]. repeat split; lia. }
    rewrite receive_data_S. cbv zeta.
    destruct (Z.ltb_spec (size (Data (m_pendingPacket s))) packetSize); [|lia].
    pose proof (chunk_capacity_data _ Hsr) as Hcap.
    rewrite <- Hps in Hcap.
    destruct (receive s (Addr tt) (Z.min (packetSize - size (Data (m_pendingPacket s))) 1024))
      as [[[st rcv] wr] s1] eqn:E.
    destruct (receive_inv _ _ _ E)
      as (r & t' & Hos & -> & Hr & Hle & Hlen & Hcase).
    rewrite <- Hcap in *.
    destruct Hcase as [(Hpos & -> & ->) | Hfail].
    + (* Done: the chunk is appended and the loop goes on *)
      assert (Hw : size wr = r) by (apply size_written; [auto | lia]).
      cbv beta iota. simpl negb. cbv iota.
      destruct (Z.gtb_spec r 0); [|lia].
      replace (firstn (Z.to_nat r) wr) with wr
        by (rewrite <- Hlen, firstn_all; reflexivity).
      replace (mkPending _ _ _) with (absorb (m_pendingPacket s) wr)
        by (rewrite absorb_data by auto; reflexivity).
      match goal with |- context [receive_data fuel ?s2] =>
        destruct (IH s2 packetSize)
          as (ex & s' & cs & tail & Heq & Hrun & Hex & HS & HR & Hsz)
      end.
      { rewrite pending_set_pending.
        rewrite absorb_data by auto. cbn [Size]. exact Hps. }
      { rewrite pending_set_pending.
        rewrite absorb_data by auto. cbn [SizeReceived]. exact Hsr. }
      { rewrite pending_set_pending.
        rewrite absorb_data by auto. cbn [Data]. rewrite size_app.
        lia. }
      rewrite Heq.
      rewrite pending_set_pending in HS, HR. rewrite absorb_data in HS, HR by auto. cbn [Size SizeReceived] in HS, HR.
      eexists ex, s', _, tail. split; [reflexivity|].
      split; [|repeat split; assumption].
      eapply loop_run_step; eauto.
    + (* not Done: the function returns, nothing appended *)
      destruct (@failed_chunk r wr st rcv _ Hlen Hfail) as (-> & -> & Hnd & Hst).
      cbv beta iota. rewrite (not_Done_negb Hnd).
      destruct (@loop_run_fail s r [] t' st) as (Hrun & Hex); auto.
      eexists (Returned st), _, [], _.
      split; [reflexivity|]. split; [exact Hrun|]. split; [exact Hex|].
      repeat split. exact Hlt.
Qed.

Lemma loop_run_trans (s s1 s2 : TcpSocket T) cs1 cs2 tail :
  loop_run s s1 cs1 [] -> loop_run s1 s2 cs2 tail ->
  loop_run s s2 (cs1 ++ cs2) tail.
Proof.
  intros (Hc1 & Ho1 & Ha1 & Hb1 & Hk1) (Hc2 & Ho2 & Ha2 & Hb2 & Hk2).
  rewrite app_nil_r in *. unfold loop_run.
  split; [rewrite Hc2, Hc1, <- !app_assoc; reflexivity|].
  split; [rewrite <- app_assoc; eapply os_run_app; eauto|].
  split; [eapply absorbs_app; eauto|]. split; congruence.
Qed.

Lemma receive_header_run (s : TcpSocket T) :
  exists ex s' cs tail,
    receive_header s = Some (ex, s')
    /\ loop_run s s' cs tail /\ loop_exit ex s' tail
    /\ Data (m_pendingPacket s') = Data (m_pendingPacket s)
    /\ match ex with
       | Completed => 4 <= SizeReceived (m_pendingPacket s')
       | Returned _ => SizeReceived (m_pendingPacket s') < 4
       end.
Proof.
  unfold receive_header.
  destruct (Z.ltb_spec (SizeReceived (m_pendingPacket s)) 4) as [Hlt|Hge].
  - apply receive_size_run. lia.
  - exists Completed, s, [], [].
    split; [reflexivity|]. split; [apply loop_run_refl|].
    split; [reflexivity|]. split; [reflexivity|assumption].
Qed.

Lemma failed_recv_not_Done cap st c : failed_recv cap st c -> st <> Done.
Proof.
  intros (r & e & _ & [(_ & ->)|(_ & ->)]);
    auto using getErrorStatus_not_Done; discriminate.
Qed.

(** What the packet handed to [receive(Packet&)] holds on a Done return. *)
Definition delivered (packet : Packet) (d : list byte) : Packet :=
  match d with
  | [] => Packet_clear packet
  | _ :: _ => Packet_onReceive (Packet_clear packet) d
  end.

(** One call of [receive(Packet&)], whole: it returns; its transport calls
    are Done chunks [cs], absorbed in order into a state [pmid], followed by
    nothing when it returns Done (then [pmid] is complete, its data is
    delivered and the pending packet is reset) or by one chunk that did not
    return Done, whose status is returned (then the pending packet is
    [pmid] and the caller's packet is empty). *)
Lemma receive_packet_run (s : TcpSocket T) (packet : Packet) :
  exists st s' packet' cs tail pmid,
    receive_packet s packet = Some (st, s', packet')
    /\ calls s' = calls s ++ cs ++ tail
    /\ os_run (os s) (cs ++ tail) (os s')
    /\ absorbs (m_pendingPacket s) cs pmid
    /\ m_isBlocking s' = m_isBlocking s
    /\ m_blockToSendBuffer s' = m_blockToSendBuffer s
    /\ ((st = Done /\ tail = [] /\ complete pmid
         /\ m_pendingPacket s' = PendingPacket_init
         /\ packet' = delivered packet (Data pmid))
        \/ (st <> Done
            /\ (exists c, tail = [c] /\ failed_recv (chunk_capacity pmid) st c)
            /\ ~ complete pmid
            /\ m_pendingPacket s' = pmid
            /\ packet' = Packet_clear packet)).
Proof.
  unfold receive_packet.
  destruct (receive_header_run s)
    as (ex & s1 & cs1 & tail1 & Heq1 & Hrun1 & Hex1 & _ & Hsz1).
  rewrite Heq1. destruct ex as [st|].
  - (* the size loop returned *)
    destruct Hrun1 as (Hc & Ho & Ha & Hb & Hk).
    exists st, s1, (Packet_clear packet), cs1, tail1, (m_pendingPacket s1).
    repeat (split; [assumption || reflexivity|]).
    right. destruct Hex1 as (c & -> & Hf).
    split; [eapply failed_recv_not_Done; eauto|].
    split; [exists c; auto|].
    split; [unfold complete; lia | auto].
  - (* the size is known *)
    simpl in Hex1. subst tail1.
    destruct (@receive_data_run
                (Z.to_nat (ntohl_bytes (Size (m_pendingPacket s1))
                           - size (Data (m_pendingPacket s1))))
                s1 (ntohl_bytes (Size (m_pendingPacket s1))))
      as (ex & s2 & cs2 & tail2 & Heq2 & Hrun2 & Hex2 & HS & HR & Hsz2);
      auto.
    rewrite Heq2.
    pose proof (loop_run_trans Hrun1 Hrun2) as (Hc & Ho & Ha & Hb & Hk).
    destruct ex as [st|].
    + exists st, s2, (Packet_clear packet), (cs1 ++ cs2), tail2,
        (m_pendingPacket s2).
      repeat (split; [assumption || reflexivity|]).
      right. destruct Hex2 as (c & -> & Hf).
      split; [eapply failed_recv_not_Done; eauto|].
      split; [exists c; auto|].
      split; [unfold complete; rewrite HS; lia | auto].
    + simpl in Hex2. subst tail2.
      eexists Done, _, _, (cs1 ++ cs2), [], (m_pendingPacket s2).
      split; [reflexivity|].
      repeat (split; [assumption || reflexivity|]).
      left. split; [reflexivity|]. split; [reflexivity|].
      split; [unfold complete; rewrite HS, HR; lia|].
      split; [reflexivity|].
      unfold delivered. destruct (Data (m_pendingPacket s2)); reflexivity.
Qed.

End Reassembly.

(** ** Properties of the reassembly state machine *)

(** The shape of a pending packet between calls. *)
Definition pending_ok (p : PendingPacket) : Prop :=
  length (Size p) = 4%nat
  /\ 0 <= SizeReceived p <= 4
  /\ (Data p <> [] -> SizeReceived p = 4)
  /\ (SizeReceived p = 4 -> size (Data p) <= ntohl_bytes (Size p)).

(** A logged chunk receive that returned Done, and its bytes. *)
Definition done_chunk (c : Call) : Prop :=
  match c with
  | CallRecv _ r w _ => 0 < r /\ size w = r
  | _ => False
  end.

Definition recv_bytes (c : Call) : list byte :=
  match c with
  | CallRecv _ _ w _ => w
  | _ => []
  end.

Lemma Z_of_byte_range (b : byte) : 0 <= Z_of_byte b < 256.
Proof.
  unfold Z_of_byte. pose proof (Byte.to_N_bounded b). lia.
Qed.

Lemma ntohl_bytes_range (m : list byte) : 0 <= ntohl_bytes m < 4294967296.
Proof.
  unfold ntohl_bytes.
  pose proof (Z_of_byte_range (nth 0 m x00)).
  pose proof (Z_of_byte_range (nth 1 m x00)).
  pose proof (Z_of_byte_range (nth 2 m x00)).
  pose proof (Z_of_byte_range (nth 3 m x00)).
  lia.
Qed.

Lemma length_write_at (off : Z) (bs m : list byte) :
  0 <= off -> off + size bs <= size m ->
  length (write_at off bs m) = length m.
Proof.
  unfold write_at, size. intros Hoff Hfit.
  rewrite !length_app, length_firstn, length_skipn. lia.
Qed.

Lemma absorb_ok (p : PendingPacket) (w : list byte) :
  pending_ok p -> 0 < size w <= chunk_capacity p -> pending_ok (absorb p w).
Proof.
  intros (HS & HR & HD & HL) Hw.
  destruct (Z.lt_ge_cases (SizeReceived p) 4) as [Hlt|Hge].
  - rewrite chunk_capacity_size in Hw by auto.
    rewrite absorb_size by auto. unfold pending_ok. cbn [Size SizeReceived Data].
    assert (Hnil : Data p = []).
    { destruct (Data p) eqn:E; [reflexivity|].
      assert (SizeReceived p = 4) by (apply HD; discriminate). lia. }
    split; [rewrite length_write_at; unfold size in *; lia|].
    split; [lia|]. split; [intros Hne; congruence|].
    intros _. rewrite Hnil.
    pose proof (ntohl_bytes_range (write_at (SizeReceived p) w (Size p))).
    unfold size; simpl; lia.
  - rewrite chunk_capacity_data in Hw by auto.
    rewrite absorb_data by auto. unfold pending_ok. cbn [Size SizeReceived Data].
    split; [assumption|]. split; [lia|]. split; [intros _; lia|].
    intros _. rewrite size_app. lia.
Qed.

Lemma absorbs_ok p cs p' : absorbs p cs p' -> pending_ok p -> pending_ok p'.
Proof.
  induction 1 as [|p r w e cs p' Hr Hw _ IH]; intros Hok; [assumption|].
  apply IH, absorb_ok; [assumption | lia].
Qed.

Lemma absorbs_fold p cs p' :
  absorbs p cs p' ->
  Forall done_chunk cs /\ p' = fold_left absorb (map recv_bytes cs) p.
Proof.
  induction 1 as [|p r w e cs p' Hr Hw _ [IHd IHf]]; [split; auto|].
  split; [constructor; [simpl; split; [lia|auto] | assumption] | exact IHf].
Qed.

(** Once the four size bytes are in, chunks only append to the data. *)
Lemma absorbs_frozen p cs p' :
  absorbs p cs p' -> 4 <= SizeReceived p ->
  Size p' = Size p /\ SizeReceived p' = SizeReceived p
  /\ Data p' = Data p ++ concat (map recv_bytes cs).
Proof.
  induction 1 as [|p r w e cs p' Hr Hw _ IH]; intros Hge.
  - simpl. rewrite app_nil_r. auto.
  - rewrite absorb_data in IH by auto. cbn [Size SizeReceived Data] in IH.
    destruct (IH Hge) as (-> & -> & ->). simpl.
    rewrite <- app_assoc. auto.
Qed.

Lemma pending_init_ok : pending_ok PendingPacket_init.
Proof.
  unfold pending_ok. simpl. repeat split; try lia; try congruence.
Qed.

Section States.

Context {T : Type} `{Transport T}.

(** The pending packets a connection can hold between calls: the initial
    one, the one left by [disconnect], and the one left by any call of
    [receive(Packet&)] made in such a state, whatever the transport does. *)
Inductive reachable : PendingPacket -> Prop :=
| reach_init : reachable PendingPacket_init
| reach_disconnect (s : TcpSocket T) :
    reachable (m_pendingPacket s) ->
    reachable (m_pendingPacket (disconnect s))
| reach_receive (s : TcpSocket T) packet st s' packet' :
    reachable (m_pendingPacket s) ->
    receive_packet s packet = Some (st, s', packet') ->
    reachable (m_pendingPacket s').

Lemma receive_packet_ok (s : TcpSocket T) packet st s' packet' :
  pending_ok (m_pendingPacket s) ->
  receive_packet s packet = Some (st, s', packet') ->
  pending_ok (m_pendingPacket s').
Proof.
  intros Hok Hrecv.
  destruct (receive_packet_run s packet)
    as (st0 & s0 & pk0 & cs & tail & pmid & Heq & _ & _ & Habs & _ & _ & Hout).
  rewrite Hrecv in Heq. inversion Heq; subst st0 s0 pk0. clear Heq.
  destruct Hout as [(_ & _ & _ & -> & _) | (_ & _ & _ & -> & _)].
  - apply pending_init_ok.
  - eapply absorbs_ok; eauto.
Qed.

Lemma reachable_ok (p : PendingPacket) : reachable p -> pending_ok p.
Proof.
  induction 1; [apply pending_init_ok | apply pending_init_ok |].
  eapply receive_packet_ok; eauto.
Qed.

End States.

(** ** Receiving a packet: the claims *)

(** C2: every call of [receive(Packet&)] returns.  Its chunk receives are a
    run of chunks that returned Done followed by at most one that did not;
    when there is one, it is the last call made, its status is the status
    returned, and the pending packet is left as the Done chunks before it
    made it, chunk by chunk: the chunk that failed changed nothing. *)
Theorem receive_abort_keeps_state :
  forall (T : Type) (TR : Transport T) (s : TcpSocket T) (packet : Packet),
  exists st s' packet' cs tail,
    receive_packet s packet = Some (st, s', packet')
    /\ calls s' = calls s ++ cs ++ tail
    /\ Forall done_chunk cs
    /\ match tail with
       | [] => st = Done
       | [c] =>
         (exists cap, failed_recv cap st c) /\ st <> Done
         /\ m_pendingPacket s'
            = fold_left absorb (map recv_bytes cs) (m_pendingPacket s)
       | _ => False
       end.
Proof.
  intros T TR s packet.
  destruct (receive_packet_run s packet)
    as (st & s' & pk & cs & tail & pmid & Heq & Hc & _ & Habs & _ & _ & Hout).
  destruct (absorbs_fold Habs) as (Hdone & Hfold).
  exists st, s', pk, cs, tail. repeat (split; [assumption|]).
  destruct Hout as [(-> & -> & _) | (Hnd & (c & -> & Hf) & _ & -> & _)].
  - reflexivity.
  - split; [eauto|]. split; assumption.
Qed.

(** C7: when the size loop has the four bytes and they decode to 0, the call
    returns Done with the socket as the size loop left it (no further
    transport call), an empty packet and a fresh pending packet. *)
Theorem receive_zero_length :
  forall (T : Type) (TR : Transport T) (s s1 : TcpSocket T) (packet : Packet),
    pending_ok (m_pendingPacket s) ->
    receive_header s = Some (Completed, s1) ->
    ntohl_bytes (Size (m_pendingPacket s1)) = 0 ->
    exists s' packet',
      receive_packet s packet = Some (Done, s', packet')
      /\ calls s' = calls s1 /\ os s' = os s1
      /\ m_pendingPacket s' = PendingPacket_init
      /\ m_data packet' = [].
Proof.
  intros T TR s s1 packet Hok Hhead Hzero.
  assert (Hnil : Data (m_pendingPacket s1) = []).
  { destruct (receive_header_run s)
      as (ex & s0 & cs & tail & Heq & _ & _ & HD & _).
    rewrite Hhead in Heq. inversion Heq; subst ex s0. rewrite HD.
    destruct Hok as (_ & HR & Hne & HL).
    destruct (Data (m_pendingPacket s)) as [|b d] eqn:E; [reflexivity|].
    assert (Hfour : SizeReceived (m_pendingPacket s) = 4)
      by (apply Hne; discriminate).
    unfold receive_header in Hhead.
    destruct (Z.ltb_spec (SizeReceived (m_pendingPacket s)) 4); [lia|].
    inversion Hhead; subst s1.
    specialize (HL Hfour). rewrite Hzero in HL.
    unfold size in HL. simpl in HL. lia. }
  unfold receive_packet. rewrite Hhead, Hzero, Hnil.
  rewrite receive_data_stop by (rewrite Hnil; unfold size; simpl; lia).
  rewrite Hnil.
  eexists _, _. split; [reflexivity|]. repeat split.
Qed.

(** C8: in every state reachable between calls the size field has its four
    bytes of memory, between 0 and 4 of them received; the data is nonempty
    only when all 4 are; and the data is no longer than the decoded size.
    A call that does not return Done on a state with the 4 size bytes in
    leaves them as they are and only appends to the data; a call that
    returns Done starts the next packet afresh. *)
Theorem reassembly_invariant :
  forall (T : Type) (TR : Transport T) (p : PendingPacket),
    reachable (T := T) p ->
    (length (Size p) = 4%nat
     /\ 0 <= SizeReceived p <= 4
     /\ (Data p <> [] -> SizeReceived p = 4)
     /\ (SizeReceived p = 4 -> size (Data p) <= ntohl_bytes (Size p)))
    /\ forall (s : TcpSocket T) packet st s' packet',
        m_pendingPacket s = p ->
        receive_packet s packet = Some (st, s', packet') ->
        (st = Done -> m_pendingPacket s' = PendingPacket_init)
        /\ (st <> Done -> SizeReceived p = 4 ->
            Size (m_pendingPacket s') = Size p
            /\ SizeReceived (m_pendingPacket s') = 4
            /\ exists more, Data (m_pendingPacket s') = Data p ++ more).
Proof.
  intros T TR p Hreach. split; [exact (reachable_ok Hreach)|].
  intros s packet st s' packet' Hp Hrecv.
  destruct (receive_packet_run s packet)
    as (st0 & s0 & pk0 & cs & tail & pmid & Heq & _ & _ & Habs & _ & _ & Hout).
  rewrite Hrecv in Heq. inversion Heq; subst st0 s0 pk0. clear Heq.
  rewrite Hp in Habs.
  destruct Hout as [(-> & _ & _ & -> & _) | (Hnd & _ & _ & -> & _)].
  - split; [reflexivity | congruence].
  - split; [congruence|]. intros _ Hfour.
    destruct (absorbs_frozen Habs) as (HS & HR & HD); [lia|].
    rewrite HS, HR, HD. eauto.
Qed.

(** C9: the caller's packet is cleared first: the call does the same on the
    packet as given and on the packet already cleared, and when it returns
    anything but Done the packet comes back cleared, with no payload, while
    the bytes of the chunks received with Done are in the pending packet. *)
Theorem receive_clears_packet :
  forall (T : Type) (TR : Transport T) (s : TcpSocket T) (packet : Packet),
  exists st s' packet',
    receive_packet s packet = Some (st, s', packet')
    /\ receive_packet s (Packet_clear packet) = Some (st, s', packet')
    /\ (st <> Done ->
        packet' = Packet_clear packet /\ m_data packet' = []
        /\ exists cs c,
            calls s' = calls s ++ cs ++ [c]
            /\ Forall done_chunk cs
            /\ m_pendingPacket s'
               = fold_left absorb (map recv_bytes cs) (m_pendingPacket s)).
Proof.
  intros T TR s packet.
  destruct (receive_packet_run s packet)
    as (st & s' & pk & cs & tail & pmid & Heq & Hc & _ & Habs & _ & _ & Hout).
  exists st, s', pk. split; [assumption|]. split; [exact Heq|].
  intros Hnd.
  destruct Hout as [(-> & _) | (_ & (c & -> & _) & _ & -> & ->)];
    [congruence|].
  split; [reflexivity|]. split; [reflexivity|].
  exists cs, c. split; [assumption|]. apply (absorbs_fold Habs).
Qed.

(** A receiver that finds four zero bytes split over two calls of the
    transport, with one more byte behind them. *)
Lemma receive_zero_length_witness :
  let s := pipe_socket [x00; x00; x00; x00; x01] [Chunk 1] in
  exists s1,
    pending_ok (m_pendingPacket s)
    /\ receive_header s = Some (Completed, s1)
    /\ ntohl_bytes (Size (m_pendingPacket s1)) = 0
    /\ exists s' packet',
        receive_packet s (mkPacket [x07] 5) = Some (Done, s', packet')
        /\ calls s' = calls s1 /\ os s' = os s1
        /\ m_pendingPacket s' = PendingPacket_init
        /\ m_data packet' = [].
Proof.
  intros s.
  let r := eval vm_compute in (receive_header s) in
  match r with Some (_, ?s1) => exists s1 end.
  assert (Hok : pending_ok (m_pendingPacket s)) by exact pending_init_ok.
  match goal with |- _ /\ ?A /\ ?B /\ _ =>
    assert (Hh : A) by (vm_compute; reflexivity);
    assert (Hz : B) by (vm_compute; reflexivity)
  end.
  split; [exact Hok|]. split; [exact Hh|]. split; [exact Hz|].
  exact (@receive_zero_length _ _ s _ (mkPacket [x07] 5) Hok Hh Hz).
Defined.

(** The state a receiver is left in when the transport gives one byte of
    the size and then would block. *)
Lemma reassembly_invariant_witness :
  let s := pipe_socket [x00; x00; x00; x03; x0a; x0b; x0c] [Chunk 0; Block] in
  exists st s' packet',
    receive_packet s (mkPacket [] 0) = Some (st, s', packet')
    /\ reachable (T := Pipe) (m_pendingPacket s')
    /\ length (Size (m_pendingPacket s')) = 4%nat
    /\ SizeReceived (m_pendingPacket s') = 1
    /\ (Data (m_pendingPacket s') <> [] ->
        SizeReceived (m_pendingPacket s') = 4).
Proof.
  intros s.
  let r := eval vm_compute in (receive_packet s (mkPacket [] 0)) in
  match r with Some (?st, ?s', ?pk) => exists st, s', pk end.
  match goal with |- ?A /\ _ =>
    assert (Hrecv : A) by (vm_compute; reflexivity)
  end.
  pose proof (reach_receive s (mkPacket [] 0) (reach_init (T := Pipe)) Hrecv)
    as Hreach.
  split; [exact Hrecv|]. split; [exact Hreach|].
  destruct (reassembly_invariant Hreach) as ((Hlen & _ & Hne & _) & _).
  split; [exact Hlen|]. split; [reflexivity | exact Hne].
Defined.

(** ** Raw send *)

(** [accepts data sz sent cs sent']: the calls [cs] are sends of the loop of
    [send] that succeeded, each offered the range not yet sent, and they
    take the count from [sent] to [sent']. *)
Inductive accepts (data : list byte) (sz : Z) : Z -> list Call -> Z -> Prop :=
| accepts_nil sent : accepts data sz sent [] sent
| accepts_cons sent r e cs sent' :
    0 < r <= sz - sent ->
    accepts data sz (sent + r) cs sent' ->
    accepts data sz sent (CallSend (range data sent sz) r e :: cs) sent'.

(** The number of bytes the transport took in the logged sends. *)
Fixpoint bytes_sent (cs : list Call) : Z :=
  match cs with
  | [] => 0
  | CallSend _ r _ :: cs => Z.max 0 r + bytes_sent cs
  | _ :: cs => bytes_sent cs
  end.

(** The bytes the transport took in the logged sends, in order. *)
Fixpoint sent_bytes (cs : list Call) : list byte :=
  match cs with
  | [] => []
  | CallSend offered r _ :: cs => firstn (Z.to_nat r) offered ++ sent_bytes cs
  | _ :: cs => sent_bytes cs
  end.

(** The last logged call is a send that failed on "would block". *)
Definition would_block (cs : list Call) : Prop :=
  exists cs0 offered e,
    cs = cs0 ++ [CallSend offered (-1) e] /\ getErrorStatus e = NotReady.

Lemma bytes_sent_app cs cs' : bytes_sent (cs ++ cs') = bytes_sent cs + bytes_sent cs'.
Proof.
  induction cs as [|c cs IH]; simpl; [reflexivity|].
  destruct c; rewrite IH; lia.
Qed.

Lemma sent_bytes_app cs cs' : sent_bytes (cs ++ cs') = sent_bytes cs ++ sent_bytes cs'.
Proof.
  induction cs as [|c cs IH]; simpl; [reflexivity|].
  destruct c; rewrite IH; auto using app_assoc.
Qed.

Lemma firstn_plus (A : Type) (a b : nat) (l : list A) :
  firstn (a + b) l = firstn a l ++ firstn b (skipn a l).
Proof.
  revert l. induction a as [|a IH]; intros l; simpl; [reflexivity|].
  destruct l as [|x l]; simpl; [destruct b; reflexivity|].
  rewrite IH. reflexivity.
Qed.

Lemma accepts_sent data sz sent cs sent' :
  accepts data sz sent cs sent' ->
  0 <= sent ->
  sent <= sent'
  /\ (sent <= sz -> sent' <= sz)
  /\ bytes_sent cs = sent' - sent
  /\ sent_bytes cs
     = firstn (Z.to_nat (sent' - sent)) (skipn (Z.to_nat sent) data)
  /\ Forall (fun c => exists o r e, c = CallSend o r e /\ 0 < r) cs.
Proof.
  induction 1 as [sent | sent r e cs sent' Hr _ IH]; intros Hsent.
  - rewrite Z.sub_diag. simpl. repeat split; auto; lia.
  - destruct IH as (Hle & Hsz & Hb & Hs & Hall); [lia|].
    split; [lia|]. split; [lia|]. split; [simpl; lia|].
    split.
    + simpl. rewrite Hs. unfold range.
      rewrite firstn_firstn.
      replace (Init.Nat.min (Z.to_nat r) (Z.to_nat (sz - sent)))
        with (Z.to_nat r) by lia.
      replace (Z.to_nat (sent' - sent))
        with (Z.to_nat r + Z.to_nat (sent' - (sent + r)))%nat by lia.
      rewrite firstn_plus, skipn_skipn.
      replace (Z.to_nat r + Z.to_nat sent)%nat with (Z.to_nat (sent + r)) by lia.
      reflexivity.
    + constructor; [|assumption].
      do 3 eexists. split; [reflexivity | lia].
Qed.

Section RawSend.

Context {T : Type} `{Transport T}.

Lemma send_loop_S (fuel : nat) (s : TcpSocket T) data sz sent :
  send_loop (S fuel) s data sz sent =
  if sent <? sz then
    let '(r, s1) := sys_send s (range data sent sz) in
    let result := to_int r in
    if result <? 0 then
      let status := getErrorStatus (os_errno (os s1)) in
      if is_NotReady status && negb (sent =? 0) then Some (Partial, sent, s1)
      else Some (status, sent, s1)
    else send_loop fuel s1 data sz (sent + result)
  else Some (Done, sent, s).
Proof. reflexivity. Qed.

Lemma send_loop_stop (fuel : nat) (s : TcpSocket T) data sz sent :
  sz <= sent -> send_loop fuel s data sz sent = Some (Done, sent, s).
Proof.
  intros Hge. destruct fuel; simpl; destruct (Z.ltb_spec sent sz); auto; lia.
Qed.

Lemma range_nonempty data sent sz :
  0 <= sent < sz -> sz <= size data -> range data sent sz <> [].
Proof.
  intros Hs Hsz Hnil. apply (f_equal (@length byte)) in Hnil.
  unfold range, size in *. rewrite length_firstn, length_skipn in Hnil.
  simpl in Hnil. lia.
Qed.

Lemma size_range data sent sz :
  0 <= sent <= sz -> sz <= size data -> size (range data sent sz) = sz - sent.
Proof.
  intros Hs Hsz. unfold range, size in *.
  rewrite length_firstn, length_skipn. lia.
Qed.

(** The status of a call of [send] that a failed transport call ends. *)
Definition send_failure (e : OsError) (sent : Z) : Status :=
  if is_NotReady (getErrorStatus e) && negb (sent =? 0) then Partial
  else getErrorStatus e.

(** The loop of [send], whole. *)
Lemma send_loop_run (fuel : nat) :
  forall (s : TcpSocket T) data sz sent,
    0 <= sent -> sz <= size data ->
    (Z.to_nat (sz - sent) <= fuel)%nat ->
    exists st sent' s' cs tail,
      send_loop fuel s data sz sent = Some (st, sent', s')
      /\ calls s' = calls s ++ cs ++ tail
      /\ os_run (os s) (cs ++ tail) (os s')
      /\ accepts data sz sent cs sent'
      /\ m_pendingPacket s' = m_pendingPacket s
      /\ m_isBlocking s' = m_isBlocking s
      /\ m_blockToSendBuffer s' = m_blockToSendBuffer s
      /\ ((st = Done /\ tail = [] /\ sz <= sent')
          \/ (exists e,
                 tail = [CallSend (range data sent' sz) (-1) e]
                 /\ sent' < sz /\ st = send_failure e sent')).
Proof.
  induction fuel as [|fuel IH]; intros s data sz sent Hsent Hsz Hfuel.
  - exists Done, sent, s, [], [].
    split; [apply send_loop_stop; lia|]. simpl. rewrite app_nil_r.
    repeat (split; [reflexivity || constructor|]). left. repeat split; lia.
  - destruct (Z.lt_ge_cases sent sz) as [Hlt|Hge].
    2:{ exists Done, sent, s, [], [].
        split; [apply send_loop_stop; lia|]. simpl. rewrite app_nil_r.
        repeat (split; [reflexivity || constructor|]).
        left. repeat split; lia. }
    rewrite send_loop_S.
    destruct (Z.ltb_spec sent sz); [|lia].
    unfold sys_send.
    destruct (os_send (os s) (range data sent sz)) as [r t'] eqn:Hos.
    destruct (os_send_law _ _ Hos) as (Hr & Hle & Hnz).
    assert (Hne : range data sent sz <> []) by (apply range_nonempty; lia).
    specialize (Hnz Hne).
    rewrite size_range in Hle by lia.
    cbv zeta. rewrite to_int_id by (unfold INT_MAX in *; lia).
    destruct (Z.ltb_spec r 0) as [Hneg|Hpos].
    + (* the transport call failed *)
      assert (r = -1) by lia. subst r.
      cbn [os with_os].
      eexists (send_failure (os_errno t') sent), sent, _, [], _.
      split; [unfold send_failure; destruct (_ && _); reflexivity|].
      split; [reflexivity|].
      split; [simpl; econstructor; [eassumption | constructor]|].
      split; [constructor|].
      repeat (split; [reflexivity|]).
      right. eexists. split; [reflexivity|]. split; [lia | reflexivity].
    + (* it took some bytes: the loop goes on *)
      match goal with |- context [send_loop fuel ?s2] =>
        destruct (IH s2 data sz (sent + r))
          as (st & sent' & s' & cs & tail & Heq & Hc & Ho & Ha & Hp & Hb & Hk
              & Hout); [lia | lia | lia |]
      end.
      rewrite Heq.
      eexists st, sent', s', (_ :: cs), tail.
      split; [reflexivity|].
      split; [rewrite Hc; simpl; rewrite <- app_assoc; reflexivity|].
      split; [simpl; econstructor; eassumption|].
      split; [constructor; [lia | assumption]|].
      repeat (split; [assumption|]). exact Hout.
Qed.

End RawSend.

Lemma send_failure_Partial (e : OsError) (sent : Z) :
  send_failure e sent = Partial <-> getErrorStatus e = NotReady /\ sent <> 0.
Proof.
  unfold send_failure.
  destruct e; simpl; destruct (Z.eqb_spec sent 0); simpl;
    split; try discriminate; try tauto; intros [? ?]; congruence.
Qed.

Lemma send_failure_NotReady (e : OsError) :
  getErrorStatus e = NotReady -> send_failure e 0 = NotReady.
Proof. unfold send_failure. intros ->. reflexivity. Qed.

Lemma send_failure_not_Done (e : OsError) (sent : Z) :
  send_failure e sent <> Done.
Proof.
  unfold send_failure.
  destruct (_ && _); auto using getErrorStatus_not_Done; discriminate.
Qed.

(** How the status of [send] reads off the log of the call. *)
Lemma send_status_log data sz sent0 cs sent tail st :
  accepts data sz sent0 cs sent -> 0 <= sent0 ->
  (st = Done /\ tail = [] /\ sz <= sent)
  \/ (exists e,
         tail = [CallSend (range data sent sz) (-1) e]
         /\ sent < sz /\ st = send_failure e sent) ->
  bytes_sent (cs ++ tail) = sent - sent0
  /\ sent_bytes (cs ++ tail)
     = firstn (Z.to_nat (sent - sent0)) (skipn (Z.to_nat sent0) data)
  /\ (st = Partial <-> would_block (cs ++ tail) /\ sent <> 0)
  /\ (would_block (cs ++ tail) -> sent = 0 -> st = NotReady).
Proof.
  intros Hacc Hs0 Hout.
  destruct (accepts_sent Hacc Hs0) as (Hle & _ & Hb & Hs & Hall).
  destruct Hout as [(-> & -> & Hsz) | (e & -> & Hlt & ->)].
  - rewrite app_nil_r.
    assert (Hnb : ~ would_block cs).
    { intros (cs0 & o & e & -> & _).
      apply Forall_app in Hall. destruct Hall as (_ & Hlast).
      inversion Hlast as [|c l (o' & r' & e' & Hc & Hr') _]; subst.
      inversion Hc; subst. lia. }
    repeat split; auto; try tauto; discriminate.
  - rewrite bytes_sent_app, sent_bytes_app, Hb, Hs. simpl.
    rewrite !app_nil_r.
    assert (Hwb : would_block (cs ++ [CallSend (range data sent sz) (-1) e])
                  <-> getErrorStatus e = NotReady).
    { split.
      - intros (cs0 & o & e0 & Heq & Hnr).
        apply app_inj_tail in Heq. destruct Heq as (_ & Heq).
        inversion Heq; subst. assumption.
      - intros Hnr. exists cs, (range data sent sz), e. auto. }
    split; [lia|]. split; [reflexivity|].
    rewrite send_failure_Partial, Hwb. split; [tauto|].
    intros Hnr ->. apply send_failure_NotReady. assumption.
Qed.

Section SendRuns.

Context {T : Type} `{Transport T}.

(** One call of [send] on a real, nonempty buffer, whole. *)
Lemma send_run (s : TcpSocket T) (d : list byte) (sz : Z) :
  0 < sz <= size d ->
  exists st sent s' cs,
    (forall v, send s (Addr d) sz v = Some (st, Assigned sent, s'))
    /\ calls s' = calls s ++ cs
    /\ os_run (os s) cs (os s')
    /\ m_pendingPacket s' = m_pendingPacket s
    /\ m_isBlocking s' = m_isBlocking s
    /\ m_blockToSendBuffer s' = m_blockToSendBuffer s
    /\ 0 <= sent <= sz
    /\ (st = Done <-> sent = sz)
    /\ bytes_sent cs = sent
    /\ sent_bytes cs = firstn (Z.to_nat sent) d
    /\ (st = Partial <-> would_block cs /\ sent <> 0)
    /\ (would_block cs -> sent = 0 -> st = NotReady)
    /\ (st = Done
        \/ exists cs0 o e,
            cs = cs0 ++ [CallSend o (-1) e]
            /\ st = send_failure e sent /\ sent < sz).
Proof.
  intros Hsz. unfold send.
  destruct (Z.eqb_spec sz 0) as [|_]; [lia|].
  destruct (@send_loop_run _ _ (Z.to_nat sz) s d sz 0)
    as (st & sent & s' & cs & tail & Heq & Hc & Ho & Ha & Hp & Hb & Hk & Hout);
    [lia | lia | lia |].
  destruct (accepts_sent Ha) as (Hle & Hup & _); [lia|].
  destruct (send_status_log Ha ltac:(lia) Hout) as (Hbs & Hsb & Hpart & Hnr).
  rewrite Z.sub_0_r in *. simpl skipn in Hsb.
  exists st, sent, s', (cs ++ tail).
  split; [intros v; rewrite Heq; reflexivity|].
  repeat (split; [assumption || lia|]).
  split.
  { destruct Hout as [(-> & _ & ?) | (e & _ & ? & ->)].
    - split; [lia | reflexivity].
    - split; [intros Hd; destruct (send_failure_not_Done _ _ Hd) | lia]. }
  split; [exact Hbs|]. split; [exact Hsb|]. split; [exact Hpart|].
  split; [exact Hnr|].
  destruct Hout as [(-> & _) | (e & -> & ? & ->)]; [left; reflexivity|].
  right. exists cs, (range d sent sz), e. auto.
Qed.

End SendRuns.

Lemma size_t_sub_le (a b : Z) : b <= a -> size_t_sub a b = a - b.
Proof. unfold size_t_sub. intros Hle. destruct (Z.ltb_spec a b); lia. Qed.

(** The block [send(Packet&)] puts together: the size in network byte order,
    then the payload. *)
Definition frame (payload : list byte) : list byte :=
  htonl_bytes (to_uint32 (size payload)) ++ payload.

Lemma size_frame (payload : list byte) : size (frame payload) = 4 + size payload.
Proof. unfold frame. rewrite size_app. reflexivity. Qed.

Lemma size_skipn (n : Z) (l : list byte) :
  0 <= n <= size l -> size (skipn (Z.to_nat n) l) = size l - n.
Proof. unfold size. intros Hn. rewrite length_skipn. lia. Qed.

Section PacketSend.

Context {T : Type} `{Transport T}.

(** One call of [send(Packet&)] with a resume offset inside the block,
    whole. *)
Lemma send_packet_run (s : TcpSocket T) (packet : Packet) :
  0 <= m_sendPos packet <= 4 + size (m_data packet) ->
  exists st s' packet' cs,
    send_packet s packet = Some (st, s', packet')
    /\ calls s' = calls s ++ cs
    /\ os_run (os s) cs (os s')
    /\ m_pendingPacket s' = m_pendingPacket s
    /\ m_isBlocking s' = m_isBlocking s
    /\ m_blockToSendBuffer s' = frame (m_data packet)
    /\ m_data packet' = m_data packet
    /\ 0 <= bytes_sent cs
    /\ m_sendPos packet + bytes_sent cs <= size (frame (m_data packet))
    /\ sent_bytes cs
       = firstn (Z.to_nat (bytes_sent cs))
                (skipn (Z.to_nat (m_sendPos packet)) (frame (m_data packet)))
    /\ (st = Done ->
        m_sendPos packet + bytes_sent cs = size (frame (m_data packet)))
    /\ (st = Partial <-> would_block cs /\ bytes_sent cs <> 0)
    /\ (would_block cs -> bytes_sent cs = 0 -> st = NotReady)
    /\ m_sendPos packet'
       = match st with
         | Partial => m_sendPos packet + bytes_sent cs
         | Done => 0
         | _ => m_sendPos packet
         end
    /\ (st = Done
        \/ (exists cs0 o e,
               cs = cs0 ++ [CallSend o (-1) e]
               /\ st = send_failure e (bytes_sent cs)
               /\ m_sendPos packet + bytes_sent cs
                  < size (frame (m_data packet)))
        \/ (m_sendPos packet = size (frame (m_data packet))
            /\ st = Error /\ cs = [])).
Proof.
  intros Hpos. unfold send_packet, Packet_onSend.
  replace (htonl_bytes (to_uint32 (size (m_data packet)))
           ++ (if size (m_data packet) >? 0 then m_data packet else []))
    with (frame (m_data packet)).
  2:{ unfold frame. f_equal.
      destruct (Z.gtb_spec (size (m_data packet)) 0) as [|Hz]; [reflexivity|].
      destruct (m_data packet); [reflexivity | unfold size in Hz; simpl in Hz; lia]. }
  pose proof (size_frame (m_data packet)) as Hsize.
  set (block := frame (m_data packet)) in *.
  destruct (Z.eq_dec (m_sendPos packet) (size block)) as [Hend|Hmid].
  - (* nothing left of the block: send refuses the empty range *)
    rewrite size_t_sub_le by lia.
    replace (size block - m_sendPos packet) with 0 by lia. simpl.
    exists Error, (set_block s block), packet, [].
    split; [reflexivity|]. simpl. rewrite app_nil_r.
    do 9 (split; [first [reflexivity | constructor | lia]|]).
    split; [discriminate|].
    split; [split; [discriminate | intros (_ & Hne); congruence]|].
    split; [intros (cs0 & o & e & Heq & _); destruct cs0; discriminate|].
    split; [reflexivity|]. right; right. auto.
  - destruct (@send_run _ _ (set_block s block)
                (skipn (Z.to_nat (m_sendPos packet)) block)
                (size block - m_sendPos packet))
      as (st & sent & s' & cs & Heq & Hc & Ho & Hp & Hb & Hk & Hs & Hd & Hbs
          & Hsb & Hpart & Hnr & Hfail).
    { rewrite size_skipn by lia. lia. }
    rewrite size_t_sub_le, Heq by lia. subst sent.
    exists st, s',
      (match st with
       | Partial => mkPacket (m_data packet) (m_sendPos packet + bytes_sent cs)
       | Done => mkPacket (m_data packet) 0
       | _ => packet
       end), cs.
    split; [destruct st; reflexivity|].
    repeat (split; [assumption || lia|]).
    split; [destruct st; reflexivity|].
    split; [lia|]. split; [lia|]. split; [exact Hsb|].
    split; [intros Hdone; apply Hd in Hdone; lia|].
    split; [exact Hpart|]. split; [exact Hnr|].
    split; [destruct st; reflexivity|].
    destruct Hfail as [->|(cs0 & o & e & -> & -> & Hlt)]; [left; reflexivity|].
    right; left. exists cs0, o, e. repeat split; auto. lia.
Qed.

End PacketSend.

(** C3: [send] on a real buffer of [sz > 0] bytes returns.  The calls it
    logs are the calls of the transport, made one after the other from the
    state the transport was in; the count it reports is the number of bytes
    the transport took in them, which are the first bytes of the buffer; it
    returns Done exactly when that is the whole buffer, and otherwise its
    last call failed.  It returns Partial exactly when its last transport
    call failed on "would block" after at least one byte was taken, and
    NotReady when that happens with none taken.  [send(Packet&)] with a
    resume offset inside the block returns; the bytes the transport took are
    the bytes of the block from the old offset on; on Partial the offset has
    advanced by their number; on Done the block has been sent to its end and
    the offset is 0; on NotReady, Error and Disconnected the offset is as
    before.  A null buffer or a size of 0 is refused with Error, without a
    call, and the caller's count is left as it was. *)
Theorem send_partial_accounting :
  forall (T : Type) (TR : Transport T) (s : TcpSocket T)
         (d : list byte) (sz : Z) (packet : Packet),
    0 < sz <= size d ->
    0 <= m_sendPos packet <= 4 + size (m_data packet) ->
    (exists st sent s' cs,
        (forall v, send s (Addr d) sz v = Some (st, Assigned sent, s'))
        /\ calls s' = calls s ++ cs
        /\ os_run (os s) cs (os s')
        /\ sent = bytes_sent cs
        /\ sent_bytes cs = firstn (Z.to_nat sent) d
        /\ 0 <= sent <= sz
        /\ (st = Done <-> sent = sz)
        /\ (st = Partial <-> would_block cs /\ 0 < sent)
        /\ (would_block cs -> sent = 0 -> st = NotReady)
        /\ (st = Done
            \/ exists cs0 o e,
                cs = cs0 ++ [CallSend o (-1) e] /\ st = send_failure e sent))
    /\ (exists st s' packet' cs,
        send_packet s packet = Some (st, s', packet')
        /\ calls s' = calls s ++ cs
        /\ os_run (os s) cs (os s')
        /\ m_data packet' = m_data packet
        /\ sent_bytes cs
           = firstn (Z.to_nat (bytes_sent cs))
               (skipn (Z.to_nat (m_sendPos packet)) (frame (m_data packet)))
        /\ (st = Partial <-> would_block cs /\ 0 < bytes_sent cs)
        /\ (would_block cs -> bytes_sent cs = 0 -> st = NotReady)
        /\ (st = Partial ->
            m_sendPos packet' = m_sendPos packet + bytes_sent cs)
        /\ (st = Done ->
            m_sendPos packet' = 0
            /\ m_sendPos packet + bytes_sent cs
               = size (frame (m_data packet)))
        /\ (st = NotReady \/ st = Error \/ st = Disconnected ->
            m_sendPos packet' = m_sendPos packet))
    /\ (forall v, send s NullPtr sz v = Some (Error, v, s))
    /\ (forall v, send s (Addr d) 0 v = Some (Error, v, s)).
Proof.
  intros T TR s d sz packet Hsz Hpos.
  split; [|split; [|split; reflexivity]].
  - destruct (send_run s d Hsz)
      as (st & sent & s' & cs & Heq & Hc & Ho & _ & _ & _ & Hs & Hdone & Hbs
          & Hsb & Hpart & Hnr & Hfail).
    exists st, sent, s', cs.
    do 3 (split; [assumption|]). split; [auto|].
    do 3 (split; [assumption|]).
    split; [rewrite Hpart; intuition lia|]. split; [exact Hnr|].
    destruct Hfail as [->|(cs0 & o & e & -> & -> & _)]; [left; reflexivity|].
    right. exists cs0, o, e. auto.
  - destruct (send_packet_run s packet Hpos)
      as (st & s' & pk & cs & Heq & Hc & Ho & _ & _ & _ & Hd & Hn & _ & Hsb
          & Hdone & Hpart & Hnr & Hsp & _).
    exists st, s', pk, cs.
    do 5 (split; [assumption|]).
    split; [rewrite Hpart; intuition lia|]. split; [exact Hnr|].
    split; [intros ->; auto|].
    split; [intros Hst; split; [subst st|]; auto|].
    intros [-> | [-> | ->]]; assumption.
Qed.

(** A sender whose transport takes two bytes, then one, then would block:
    both functions return Partial with three bytes taken, and the packet
    resumes from offset 3. *)
Lemma send_partial_accounting_witness :
  let s := pipe_socket [] [Chunk 1; Chunk 0; Block; Chunk 10] in
  let d := [x01; x02; x03; x04; x05] in
  let packet := mkPacket [x0a; x0b; x0c] 0 in
  (0 < 5 <= size d)
  /\ (0 <= m_sendPos packet <= 4 + size (m_data packet))
  /\ (exists s' cs,
        (forall v, send s (Addr d) 5 v = Some (Partial, Assigned 3, s'))
        /\ calls s' = calls s ++ cs
        /\ would_block cs
        /\ bytes_sent cs = 3
        /\ sent_bytes cs = [x01; x02; x03])
  /\ (exists s' cs,
        send_packet s packet
        = Some (Partial, s', mkPacket [x0a; x0b; x0c] 3)
        /\ calls s' = calls s ++ cs
        /\ would_block cs
        /\ bytes_sent cs = 3
        /\ sent_bytes cs = [x00; x00; x00]).
Proof.
  intros s d packet.
  assert (H1 : 0 < 5 <= size d) by (unfold size; simpl; lia).
  assert (H2 : 0 <= m_sendPos packet <= 4 + size (m_data packet))
    by (unfold size; simpl; lia).
  split; [exact H1|]. split; [exact H2|].
  destruct (@send_partial_accounting _ _ s d 5 packet H1 H2)
    as ((st & sent & s1 & cs & Heq & Hc & _ & Hb & Hsb & _ & _ & Hpart & _)
        & (st' & s2 & pk & cs' & Heq' & Hc' & _ & _ & Hsb' & Hpart' & _
           & Hsp & _) & _).
  split.
  - assert (Hrun : send s (Addr d) 5 Unassigned
                   = Some (st, Assigned sent, s1)) by apply Heq.
    assert (Hst : st = Partial /\ sent = 3)
      by (vm_compute in Hrun; split; congruence).
    destruct Hst as (Hst & Hsent).
    exists s1, cs.
    split; [intros v; rewrite (Heq v), Hst, Hsent; reflexivity|].
    split; [exact Hc|].
    split; [apply Hpart; exact Hst|].
    split; [rewrite <- Hb; exact Hsent | rewrite Hsb, Hsent; reflexivity].
  - assert (Hst : st' = Partial /\ pk = mkPacket [x0a; x0b; x0c] 3).
    { pose proof Heq' as Hrun. vm_compute in Hrun. split; congruence. }
    destruct Hst as (Hst & Hpk).
    assert (Hb' : bytes_sent cs' = 3).
    { pose proof (Hsp Hst) as Hadv. rewrite Hpk in Hadv.
      simpl in Hadv. lia. }
    exists s2, cs'.
    split; [rewrite Heq', Hst, Hpk; reflexivity|].
    split; [exact Hc'|]. split; [apply Hpart'; exact Hst|].
    split; [exact Hb' | rewrite Hsb', Hb'; reflexivity].
Defined.

(** ** Connecting *)

Lemma to_long_id (z : Z) :
  -9223372036854775808 <= z < 9223372036854775808 -> to_long z = z.
Proof.
  unfold to_long. intros Hz. rewrite Z.mod_small by lia. lia.
Qed.

(** The [timeval] built from a positive timeout in microseconds holds
    exactly that timeout. *)
Lemma timeval_exact (timeout : Z) :
  0 < timeout < 9223372036854775808 ->
  let tv_sec := to_long (Z.quot timeout 1000000) in
  let tv_usec := to_int (Z.rem timeout 1000000) in
  tv_sec * 1000000 + tv_usec = timeout /\ 0 <= tv_usec < 1000000.
Proof.
  intros Ht. cbv zeta.
  rewrite Z.quot_div_nonneg, Z.rem_mod_nonneg by lia.
  pose proof (Z.mod_pos_bound timeout 1000000 ltac:(lia)) as Hm.
  pose proof (Z.div_mod timeout 1000000 ltac:(lia)) as Hd.
  assert (0 <= timeout / 1000000 <= timeout).
  { split; [apply Z.div_pos; lia | apply Z.div_le_upper_bound; lia]. }
  rewrite to_long_id, to_int_id by (unfold INT_MAX; lia). lia.
Qed.

(** Unfolding [connect] down to the calls of the transport. *)
Ltac socket_fields :=
  cbn [os calls m_isBlocking m_pendingPacket m_blockToSendBuffer].

Ltac unfold_connect :=
  unfold connect, disconnect, create, close, isBlocking, sys_connect,
    sys_select_write, getRemoteAddress, sys_getpeername, setBlocking,
    with_os, set_pending;
  socket_fields.

(** A return of [connect]: the result, the calls it logged, the mode. *)
Ltac connect_returns :=
  eexists _, _, _; split; [reflexivity|];
  socket_fields; rewrite <- !app_assoc;
  split; [reflexivity|]; split; [reflexivity|].

(** C5: [connect] returns with the blocking mode it was called with, on
    every path; with a zero or negative timeout it makes no call of
    [setBlocking] at all. *)
Theorem connect_restores_blocking :
  forall (T : Type) (TR : Transport T) (s : TcpSocket T)
         (remoteAddress remotePort timeout : Z),
  exists st s' cs,
    connect s remoteAddress remotePort timeout = (st, s')
    /\ calls s' = calls s ++ cs
    /\ m_isBlocking s' = m_isBlocking s
    /\ (timeout <= 0 -> forall b, ~ In (CallSetBlocking b) cs).
Proof.
  intros T TR s remoteAddress remotePort timeout.
  unfold_connect.
  destruct (Z.leb_spec timeout 0) as [Hle|Hgt].
  - (* no timeout: one attempt, the mode is never touched *)
    destruct (os_connect _ _ _) as [r t1]. socket_fields.
    destruct (r =? -1); eexists _, _, _;
      (split; [reflexivity|]); socket_fields; rewrite <- !app_assoc;
      (split; [reflexivity|]); (split; [reflexivity|]);
      intros _ b [Hin|[Hin|[Hin|[]]]]; discriminate.
  - (* timeout: every return path, by the mode found at entry *)
    destruct (m_isBlocking s) eqn:Hb; socket_fields;
      destruct (os_connect _ _ _) as [r t1]; socket_fields;
      destruct (r >=? 0); cbn [negb]; try (connect_returns; intros; lia).
    destruct (is_NotReady (getErrorStatus (os_errno t1)));
      [|connect_returns; intros; lia].
    destruct (os_select_write _ _ _) as [r2 t2]. socket_fields.
    destruct (r2 >? 0); [|connect_returns; intros; lia].
    destruct (os_valid t2); [|connect_returns; intros; lia].
    destruct (os_getpeername t2) as [[r3 a] t3]. socket_fields.
    destruct (negb (r3 =? -1)); connect_returns; intros; lia.
Qed.

(** C4, as the code has it.  Take a call of [connect] with a positive
    timeout whose connection attempt fails with "would block / in
    progress".  If the socket was blocking before the call, [select] is
    called once, right after the attempt, with a [timeval] holding exactly
    the timeout; when it reports the handle writable the result is Done
    exactly when the remote address can be retrieved, and otherwise the
    translated error is returned.  If the socket was non-blocking before the
    call, [connect] returns NotReady at once, without waiting. *)
Theorem connect_waits_with_timeout :
  forall (T : Type) (TR : Transport T) (s : TcpSocket T)
         (remoteAddress remotePort timeout rc : Z) (t1 : T),
    0 < timeout < 9223372036854775808 ->
    let prior := m_isBlocking s in
    let t0 := os_create (os_close (os s)) in
    os_connect (if prior then os_setblocking t0 false else t0)
               remoteAddress remotePort = (rc, t1) ->
    rc < 0 ->
    getErrorStatus (os_errno t1) = NotReady ->
    exists st s',
      connect s remoteAddress remotePort timeout = (st, s')
      /\ if prior then
           exists tv_sec tv_usec r t2 post,
             os_select_write t1 tv_sec tv_usec = (r, t2)
             /\ tv_sec * 1000000 + tv_usec = timeout
             /\ 0 <= tv_usec < 1000000
             /\ calls s'
                = calls s
                  ++ [CallClose; CallCreate; CallSetBlocking false;
                      CallConnect rc; CallSelect tv_sec tv_usec r]
                  ++ post ++ [CallSetBlocking true]
             /\ (forall a b c, ~ In (CallSelect a b c) post)
             /\ (0 < r ->
                 (st = Done <->
                  os_valid t2 = true /\ fst (fst (os_getpeername t2)) <> -1))
             /\ (r <= 0 -> st = getErrorStatus (os_errno t2))
         else
           st = NotReady
           /\ calls s' = calls s ++ [CallClose; CallCreate; CallConnect rc].
Proof.
  intros T TR s remoteAddress remotePort timeout rc t1 Ht prior t0 Hconn Hrc
    Hnr.
  destruct (timeval_exact Ht) as (Htv & Husec).
  unfold_connect.
  destruct (Z.leb_spec timeout 0) as [Hle|_]; [lia|].
  subst prior t0. destruct (m_isBlocking s);
    cbn [os calls m_isBlocking]; rewrite Hconn;
    cbn [os calls m_isBlocking];
    (destruct (Z.geb_spec rc 0) as [Hge|_]; [lia|]); cbn [negb].
  - rewrite Hnr. cbn [is_NotReady].
    destruct (os_select_write t1 _ _) as [r t2] eqn:Hsel.
    cbn [os calls m_isBlocking].
    destruct (Z.gtb_spec r 0) as [Hpos|Hneg].
    + destruct (os_valid t2) eqn:Hv.
      * destruct (os_getpeername t2) as [[r3 a] t3] eqn:Hpeer.
        cbn [os calls m_isBlocking fst].
        destruct (Z.eqb_spec r3 (-1)) as [Hm|Hm]; cbn [negb];
          eexists _, _; (split; [reflexivity|]);
          exists (to_long (Z.quot timeout 1000000)),
                 (to_int (Z.rem timeout 1000000)), r, t2,
                 [CallGetPeerName r3];
          (split; [exact Hsel|]); (split; [exact Htv|]);
          (split; [exact Husec|]);
          cbn [os calls m_isBlocking]; rewrite <- !app_assoc;
          (split; [reflexivity|]);
          (split; [intros ? ? ? [Hin|[]]; discriminate|]);
          (split; [|intros; lia]); intros _; rewrite Hpeer; cbn [fst].
        -- split; [intros Hd; destruct (getErrorStatus_not_Done _ Hd)|].
           intros (_ & Hne). congruence.
        -- split; [auto | reflexivity].
      * eexists _, _; (split; [reflexivity|]).
        exists (to_long (Z.quot timeout 1000000)),
               (to_int (Z.rem timeout 1000000)), r, t2, [].
        split; [exact Hsel|]. split; [exact Htv|]. split; [exact Husec|].
        cbn [os calls m_isBlocking]. rewrite <- !app_assoc.
        split; [reflexivity|]. split; [intros ? ? ? []|].
        split; [|intros; lia]. intros _.
        split; [intros Hd; destruct (getErrorStatus_not_Done _ Hd)|].
        intros (Hf & _). congruence.
    + eexists _, _; (split; [reflexivity|]).
      exists (to_long (Z.quot timeout 1000000)),
             (to_int (Z.rem timeout 1000000)), r, t2, [].
      split; [exact Hsel|]. split; [exact Htv|]. split; [exact Husec|].
      cbn [os calls m_isBlocking]. rewrite <- !app_assoc.
      split; [reflexivity|]. split; [intros ? ? ? []|].
      split; [intros; lia | reflexivity].
  - eexists _, _; (split; [reflexivity|]).
    cbn [os calls m_isBlocking]. rewrite <- !app_assoc.
    split; [exact Hnr | reflexivity].
Qed.

(** A pipe whose connection attempt is in progress, and then completes. *)
Definition connects_later : ConnectScript :=
  mkScript (-1) WouldBlock 1 OtherFailure 0 OtherFailure.

Definition connecting_socket (blocking : bool) : TcpSocket Pipe :=
  mkSocket (mkPipe [] [] [] OtherFailure false blocking connects_later)
           [] blocking PendingPacket_init [].

(** The claim C4 says the wait happens whatever the prior blocking mode; on
    a socket that was non-blocking, [connect] with a timeout of 2.5 s whose
    attempt is in progress returns NotReady and never calls [select]. *)
Lemma connect_nonblocking_does_not_wait :
  let r := connect (connecting_socket false) 1 80 2500000 in
  fst r = NotReady
  /\ calls (snd r) = [CallClose; CallCreate; CallConnect (-1)]
  /\ forall a b c, ~ In (CallSelect a b c) (calls (snd r)).
Proof.
  vm_compute. split; [reflexivity|]. split; [reflexivity|].
  intros a b c [Hin|[Hin|[Hin|[]]]]; discriminate.
Qed.

(** The same attempt on a socket that was blocking waits 2 s and 500000 us,
    and succeeds. *)
Lemma connect_waits_with_timeout_witness :
  exists st s',
    connect (connecting_socket true) 1 80 2500000 = (st, s')
    /\ exists tv_sec tv_usec r t2 post,
        os_select_write
          (snd (os_connect
                  (os_setblocking
                     (os_create (os_close (os (connecting_socket true))))
                     false) 1 80))
          tv_sec tv_usec = (r, t2)
        /\ tv_sec * 1000000 + tv_usec = 2500000
        /\ 0 <= tv_usec < 1000000
        /\ calls s'
           = calls (connecting_socket true)
             ++ [CallClose; CallCreate; CallSetBlocking false;
                 CallConnect (-1); CallSelect tv_sec tv_usec r]
             ++ post ++ [CallSetBlocking true]
        /\ (forall a b c, ~ In (CallSelect a b c) post)
        /\ (0 < r ->
            (st = Done <->
             os_valid t2 = true /\ fst (fst (os_getpeername t2)) <> -1))
        /\ (r <= 0 -> st = getErrorStatus (os_errno t2)).
Proof.
  refine (@connect_waits_with_timeout Pipe _ (connecting_socket true)
            1 80 2500000 (-1) _ _ _ _ _).
  - lia.
  - reflexivity.
  - lia.
  - reflexivity.
Defined.

(** ** The size prefix on the wire *)

Lemma Z_of_byte_of_Z (z : Z) : Z_of_byte (byte_of_Z z) = z mod 256.
Proof.
  unfold Z_of_byte, byte_of_Z.
  pose proof (Z.mod_pos_bound z 256 ltac:(lia)) as Hm.
  destruct (Byte.of_N (Z.to_N (z mod 256))) as [b|] eqn:E.
  - apply Byte.to_of_N in E. rewrite E. lia.
  - apply Byte.of_N_None_iff in E. lia.
Qed.

Lemma length_htonl_bytes (v : Z) : length (htonl_bytes v) = 4%nat.
Proof. reflexivity. Qed.

Lemma ntohl_htonl (v : Z) :
  0 <= v < 4294967296 -> ntohl_bytes (htonl_bytes v) = v.
Proof.
  intros Hv. unfold ntohl_bytes, htonl_bytes. cbn [nth].
  rewrite !Z_of_byte_of_Z.
  Z.div_mod_to_equations. lia.
Qed.

(** ** Runs of the mock pipe *)

Lemma pipe_send_cases (p : Pipe) (bs : list byte) (r : Z) (p' : Pipe) :
  pipe_send p bs = (r, p') ->
  wire p' = wire p ++ firstn (Z.to_nat r) bs
  /\ incoming p' = incoming p
  /\ schedule p' = tl (schedule p)
  /\ (r < 0 ->
      last_error p' = WouldBlock
      /\ (length (schedule p') < length (schedule p))%nat).
Proof.
  unfold pipe_send, pipe_fail. intros Hs.
  assert (Hb := size_nonneg bs).
  assert (Hq := quota_bounds (schedule p) (size bs)).
  remember (quota (schedule p) (size bs)) as q eqn:Eq. clear Eq.
  assert (Hr : size (firstn (Z.to_nat q) bs) = Z.max 0 q).
  { unfold size. rewrite length_firstn. unfold size in *. lia. }
  assert (Hf : firstn (Z.to_nat (Z.max 0 q)) bs = firstn (Z.to_nat q) bs)
    by (f_equal; lia).
  destruct (schedule p) as [|[k|] sch]; inversion Hs; subst; clear Hs;
    cbn [wire incoming schedule last_error pipe_fail tl].
  all: try rewrite Hr, Hf.
  all: repeat split; auto; try lia.
  simpl. rewrite app_nil_r. reflexivity.
Qed.

Lemma pipe_recv_cases (p : Pipe) (cap r : Z) (w : list byte) (p' : Pipe) :
  pipe_recv p cap = (r, w, p') ->
  wire p' = wire p
  /\ incoming p = w ++ incoming p'
  /\ schedule p' = tl (schedule p)
  /\ (r < 0 ->
      last_error p' = WouldBlock
      /\ (length (schedule p') < length (schedule p))%nat)
  /\ (r = 0 -> 0 < cap -> incoming p = []).
Proof.
  unfold pipe_recv, pipe_fail. intros Hs.
  assert (Hb := size_nonneg (incoming p)).
  assert (Hq := quota_bounds (schedule p) (Z.min cap (size (incoming p)))).
  remember (quota (schedule p) (Z.min cap (size (incoming p)))) as q eqn:Eq.
  clear Eq.
  assert (Hr : size (firstn (Z.to_nat q) (incoming p)) = Z.max 0 q).
  { unfold size. rewrite length_firstn. unfold size in *. lia. }
  assert (Hnil : Z.max 0 q = 0 -> 0 < cap -> incoming p = []).
  { intros Hz Hcap. destruct (incoming p); [reflexivity|].
    unfold size in *. simpl in *. lia. }
  destruct (schedule p) as [|[k|] sch]; inversion Hs; subst; clear Hs;
    cbn [wire incoming schedule last_error pipe_fail tl].
  all: try rewrite Hr.
  all: repeat split; auto; try lia.
  all: try (symmetry; apply firstn_skipn).
Qed.

(** What a run of send and receive calls does to the pipe. *)
Lemma pipe_run (t : Pipe) (cs : list Call) (t' : Pipe) :
  os_run t cs t' ->
  wire t' = wire t ++ sent_bytes cs
  /\ incoming t = concat (map recv_bytes cs) ++ incoming t'
  /\ (length (schedule t') <= length (schedule t))%nat.
Proof.
  induction 1 as [t | t cap r w t' cs t'' Hos _ IH | t bs r t' cs t'' Hos _ IH].
  - simpl. rewrite app_nil_r. auto.
  - destruct (pipe_recv_cases _ _ Hos) as (Hw & Hi & Hsch & _).
    destruct IH as (IHw & IHi & IHs). simpl.
    rewrite IHw, Hw, Hi, IHi, <- app_assoc.
    repeat split; auto. rewrite Hsch in IHs.
    destruct (schedule t); simpl in *; lia.
  - destruct (pipe_send_cases _ _ Hos) as (Hw & Hi & Hsch & _).
    destruct IH as (IHw & IHi & IHs). simpl.
    rewrite IHw, Hw, <- Hi, IHi, <- app_assoc.
    repeat split; auto. rewrite Hsch in IHs.
    destruct (schedule t); simpl in *; lia.
Qed.

Lemma os_run_app_inv (T : Type) (TR : Transport T) (t : T) cs cs' t'' :
  os_run t (cs ++ cs') t'' ->
  exists t', os_run t cs t' /\ os_run t' cs' t''.
Proof.
  revert t. induction cs as [|c cs IH]; intros t Hrun; simpl in *.
  - exists t. split; [constructor | assumption].
  - inversion Hrun; subst;
      match goal with Hr : os_run _ (cs ++ cs') _ |- _ =>
        destruct (IH _ Hr) as (tm & Hfst & Hsnd)
      end;
      exists tm; (split; [econstructor; eauto | assumption]).
Qed.

(** A run of the pipe that ends in a failed call ends on "would block",
    with one scheduled event less. *)
Lemma pipe_run_blocked (t : Pipe) (cs : list Call) (c : Call) (t' : Pipe) :
  os_run t (cs ++ [c]) t' ->
  (exists o e, c = CallSend o (-1) e)
  \/ (exists cap w e, c = CallRecv cap (-1) w e) ->
  (exists o, c = CallSend o (-1) WouldBlock
             \/ exists cap w, c = CallRecv cap (-1) w WouldBlock)
  /\ (length (schedule t') < length (schedule t))%nat.
Proof.
  intros Hrun Hc.
  destruct (os_run_app_inv _ _ Hrun) as (tm & H1 & H2).
  destruct (pipe_run H1) as (_ & _ & Hlen).
  destruct Hc as [(o & e & ->) | (cap & w & e & ->)];
    inversion H2 as [| ? ? ? ? ? ? ? Hos Hnil | ? ? ? ? ? ? Hos Hnil]; subst;
    inversion Hnil; subst.
  - destruct (pipe_send_cases _ _ Hos) as (_ & _ & _ & Hneg).
    destruct Hneg as (He & Hs); [lia|].
    change (os_errno t') with (last_error t'). rewrite He.
    split; [exists o; left; reflexivity | lia].
  - destruct (pipe_recv_cases _ _ Hos) as (_ & _ & _ & Hneg & _).
    destruct Hneg as (He & Hs); [lia|].
    change (os_errno t') with (last_error t'). rewrite He.
    split; [exists []; right; eauto | lia].
Qed.

(** A receive of the pipe that returns 0 for a positive capacity found
    nothing in flight. *)
Lemma pipe_run_drained (t : Pipe) (cs : list Call) cap w e (t' : Pipe) :
  os_run t (cs ++ [CallRecv cap 0 w e]) t' -> 0 < cap ->
  exists tm, os_run t cs tm /\ incoming tm = [].
Proof.
  intros Hrun Hcap.
  destruct (os_run_app_inv _ _ Hrun) as (tm & H1 & H2).
  exists tm. split; [assumption|].
  inversion H2 as [| ? ? ? ? ? ? ? Hos Hnil | ]; subst.
  destruct (pipe_recv_cases _ _ Hos) as (_ & _ & _ & _ & Hz). auto.
Qed.

(** ** The byte stream seen by the receiver *)

(** The bytes of the current packet taken off the stream so far. *)
Definition consumed (p : PendingPacket) : list byte :=
  firstn (Z.to_nat (SizeReceived p)) (Size p) ++ Data p.

Lemma app_inv_length (A : Type) (a b c d : list A) :
  length a = length b -> a ++ c = b ++ d -> a = b /\ c = d.
Proof.
  revert b. induction a as [|x a IH]; intros [|y b] Hlen Heq;
    try discriminate; simpl in *; [auto|].
  inversion Heq; subst. destruct (IH b) as (-> & ->); auto.
Qed.

Lemma firstn_write_at (off : Z) (bs m : list byte) :
  0 <= off <= size m ->
  firstn (Z.to_nat (off + size bs)) (write_at off bs m)
  = firstn (Z.to_nat off) m ++ bs.
Proof.
  intros Hoff. unfold write_at. rewrite app_assoc.
  rewrite firstn_app.
  replace (Z.to_nat (off + size bs)
           - length (firstn (Z.to_nat off) m ++ bs))%nat with 0%nat
    by (rewrite length_app, length_firstn; unfold size in *; lia).
  simpl. rewrite app_nil_r. apply firstn_all2.
  rewrite length_app, length_firstn. unfold size in *. lia.
Qed.

Lemma absorb_consumed (p : PendingPacket) (w : list byte) :
  pending_ok p -> 0 < size w <= chunk_capacity p ->
  consumed (absorb p w) = consumed p ++ w.
Proof.
  intros (HS & HR & HD & HL) Hw. unfold consumed.
  destruct (Z.lt_ge_cases (SizeReceived p) 4) as [Hlt|Hge].
  - rewrite absorb_size by auto. cbn [Size SizeReceived Data].
    assert (Hnil : Data p = []).
    { destruct (Data p) eqn:E; [reflexivity|].
      assert (SizeReceived p = 4) by (apply HD; discriminate). lia. }
    rewrite Hnil, !app_nil_r. apply firstn_write_at. unfold size. lia.
  - rewrite absorb_data by auto. cbn [Size SizeReceived Data].
    apply app_assoc.
Qed.

Lemma absorbs_consumed p cs p' :
  absorbs p cs p' -> pending_ok p ->
  consumed p' = consumed p ++ concat (map recv_bytes cs).
Proof.
  induction 1 as [|p r w e cs p' Hr Hw _ IH]; intros Hok.
  - simpl. rewrite app_nil_r. reflexivity.
  - rewrite IH by (apply absorb_ok; [assumption | lia]).
    rewrite absorb_consumed by (assumption || lia).
    simpl. rewrite <- app_assoc. reflexivity.
Qed.

Lemma capacity_pos (p : PendingPacket) :
  pending_ok p -> ~ complete p -> 0 < chunk_capacity p.
Proof.
  intros (_ & HR & _ & _) Hinc.
  destruct (Z.lt_ge_cases (SizeReceived p) 4) as [Hlt|Hge].
  - rewrite chunk_capacity_size by auto. lia.
  - rewrite chunk_capacity_data by auto. unfold complete in Hinc. lia.
Qed.

(** Reading a pending packet against the stream it was filled from, when
    the stream starts with the frame of [payload]. *)
Lemma frame_decode (p : PendingPacket) (payload rest tail : list byte) :
  pending_ok p ->
  consumed p ++ tail = frame payload ++ rest ->
  size payload < 4294967296 ->
  (complete p -> Data p = payload /\ tail = rest)
  /\ (~ complete p -> tail <> []).
Proof.
  intros (HS & HR & HD & HL) Hstream Hsmall.
  pose proof (size_nonneg payload) as Hp0.
  unfold consumed, frame in Hstream.
  assert (Hfour : SizeReceived p = 4 ->
            Size p = htonl_bytes (to_uint32 (size payload))
            /\ Data p ++ tail = payload ++ rest
            /\ ntohl_bytes (Size p) = size payload).
  { intros H4. rewrite H4, firstn_all2, <- !app_assoc in Hstream by lia.
    apply app_inv_length in Hstream; [|rewrite HS; reflexivity].
    destruct Hstream as (Hsz & Hrest). split; [assumption|].
    split; [assumption|]. rewrite Hsz. unfold to_uint32.
    rewrite Z.mod_small by lia. apply ntohl_htonl. lia. }
  split.
  - intros (Hge & Hfull).
    destruct (Hfour ltac:(lia)) as (_ & Hrest & Hn).
    specialize (HL ltac:(lia)).
    apply app_inv_length in Hrest; [assumption|].
    unfold size in *. lia.
  - intros Hinc ->. rewrite app_nil_r in Hstream.
    apply (f_equal (@length byte)) in Hstream.
    rewrite !length_app, length_firstn, length_htonl_bytes in Hstream.
    destruct (Z.lt_ge_cases (SizeReceived p) 4) as [Hlt|Hge].
    + destruct (Data p) as [|b d];
        [simpl in Hstream; lia
        | assert (SizeReceived p = 4) by (apply HD; discriminate); lia].
    + destruct (Hfour ltac:(lia)) as (_ & _ & Hn).
      unfold complete in Hinc. unfold size in *. lia.
Qed.

(** ** The two ends of a connection *)

Section Callers.

Context {T : Type} `{Transport T}.

(** Modelled from the spec: the caller of [send(Packet&)], which calls
    again on Partial and NotReady with the resume offset kept in the packet,
    and stops on any other status.  [fuel] bounds the retries. *)
Fixpoint send_until_done (fuel : nat) (s : TcpSocket T) (packet : Packet)
  : option (Status * TcpSocket T * Packet) :=
  match send_packet s packet with
  | None => None
  | Some (st, s', packet') =>
    match st, fuel with
    | Partial, S fuel => send_until_done fuel s' packet'
    | NotReady, S fuel => send_until_done fuel s' packet'
    | _, _ => Some (st, s', packet')
    end
  end.

(** Modelled from the spec: the caller of [receive(Packet&)], which calls
    again on NotReady and stops on any other status.  [fuel] bounds the
    retries. *)
Fixpoint receive_until_done (fuel : nat) (s : TcpSocket T) (packet : Packet)
  : option (Status * TcpSocket T * Packet) :=
  match receive_packet s packet with
  | None => None
  | Some (st, s', packet') =>
    match st, fuel with
    | NotReady, S fuel => receive_until_done fuel s' packet'
    | _, _ => Some (st, s', packet')
    end
  end.

Lemma send_until_done_eq (fuel : nat) (s : TcpSocket T) (packet : Packet) :
  send_until_done fuel s packet =
  match send_packet s packet with
  | None => None
  | Some (st, s', packet') =>
    match st, fuel with
    | Partial, S fuel => send_until_done fuel s' packet'
    | NotReady, S fuel => send_until_done fuel s' packet'
    | _, _ => Some (st, s', packet')
    end
  end.
Proof. destruct fuel; reflexivity. Qed.

Lemma receive_until_done_eq (fuel : nat) (s : TcpSocket T) (packet : Packet) :
  receive_until_done fuel s packet =
  match receive_packet s packet with
  | None => None
  | Some (st, s', packet') =>
    match st, fuel with
    | NotReady, S fuel => receive_until_done fuel s' packet'
    | _, _ => Some (st, s', packet')
    end
  end.
Proof. destruct fuel; reflexivity. Qed.

End Callers.

Lemma m_data_delivered (packet : Packet) (d : list byte) :
  m_data (delivered packet d) = d.
Proof. destruct d; reflexivity. Qed.

(** The receiver on the pipe: whatever the schedule, the caller's loop ends
    with Done and the payload whose frame heads the stream, and leaves the
    rest of the stream in flight. *)
Lemma receive_until_done_pipe (n : nat) :
  forall (s : TcpSocket Pipe) (packet : Packet) (payload rest : list byte),
    (length (schedule (os s)) <= n)%nat ->
    pending_ok (m_pendingPacket s) ->
    consumed (m_pendingPacket s) ++ incoming (os s) = frame payload ++ rest ->
    size payload < 4294967296 ->
    exists s' packet',
      receive_until_done n s packet = Some (Done, s', packet')
      /\ m_data packet' = payload
      /\ m_pendingPacket s' = PendingPacket_init
      /\ incoming (os s') = rest.
Proof.
  induction n as [|n IH]; intros s packet payload rest Hn Hok Hstream Hsmall;
    rewrite receive_until_done_eq;
    destruct (receive_packet_run s packet)
      as (st & s1 & pk & cs & tail & pmid & Heq & _ & Ho & Habs & _ & _ & Hout);
    rewrite Heq;
    pose proof (absorbs_ok Habs Hok) as Hokm;
    pose proof (absorbs_consumed Habs Hok) as Hcons;
    destruct (pipe_run Ho) as (_ & Hinc & Hlen);
    rewrite map_app, concat_app in Hinc;
    (destruct Hout as [(-> & -> & Hcomp & Hp & ->)
                      | (Hnd & (c & -> & Hf) & Hincomp & Hp & ->)];
     [ (* Done *)
       simpl in Hinc;
       assert (Hs1 : consumed pmid ++ incoming (os s1) = frame payload ++ rest)
         by (rewrite Hcons, <- app_assoc, <- Hstream, Hinc, app_nil_r;
             reflexivity);
       destruct (@frame_decode pmid payload rest _ Hokm Hs1 Hsmall) as (Hd & _);
       destruct (Hd Hcomp) as (Hdata & Hrest);
       exists s1, (delivered packet (Data pmid));
       split; [reflexivity|];
       split; [rewrite m_data_delivered; assumption|];
       split; assumption
     | (* a chunk failed *)
       destruct Hf as (r & e & -> & Hr);
       pose proof (capacity_pos Hokm Hincomp) as Hcap;
       destruct Hr as [(-> & ->) | (-> & ->)];
       [ (* the pipe never reads 0 while the frame is incomplete *)
         exfalso;
         destruct (@pipe_run_drained _ cs _ _ _ _ Ho Hcap) as (tm & Hrun & Hnil);
         destruct (pipe_run Hrun) as (_ & Hinc' & _);
         rewrite Hnil, app_nil_r in Hinc';
         assert (Hs1 : consumed pmid ++ [] = frame payload ++ rest)
           by (rewrite Hcons, <- app_assoc, <- Hstream, Hinc', app_nil_r;
               reflexivity);
         destruct (@frame_decode pmid payload rest _ Hokm Hs1 Hsmall) as (_ & Hne);
         exact (Hne Hincomp eq_refl)
       | (* would block: one event of the schedule is gone *)
         destruct (@pipe_run_blocked _ cs _ _ Ho) as ((o & Hwb) & Hshort);
         [right; eauto|];
         assert (He : e = WouldBlock)
           by (destruct Hwb as [Hwb | (? & ? & Hwb)]; congruence);
         subst e; simpl getErrorStatus ] ]).
  - (* no event is left to block on *)
    exfalso. lia.
  - simpl in Hinc. rewrite app_nil_r in Hinc.
    destruct (IH s1 (Packet_clear packet) payload rest)
      as (s' & pk' & Heq' & Hres); auto; [lia | rewrite Hp; auto | |].
    + rewrite Hp, Hcons, <- app_assoc, <- Hstream, Hinc. reflexivity.
    + exists s', pk'. split; assumption.
Qed.

(** The sender on the pipe: whatever the schedule, the caller's loop ends
    with Done and the whole frame on the wire, once. *)
Lemma send_until_done_pipe (n : nat) :
  forall (s : TcpSocket Pipe) (packet : Packet),
    (length (schedule (os s)) <= n)%nat ->
    0 <= m_sendPos packet < size (frame (m_data packet)) ->
    wire (os s)
    = firstn (Z.to_nat (m_sendPos packet)) (frame (m_data packet)) ->
    exists s' packet',
      send_until_done n s packet = Some (Done, s', packet')
      /\ wire (os s') = frame (m_data packet)
      /\ m_data packet' = m_data packet
      /\ m_sendPos packet' = 0.
Proof.
  induction n as [|n IH]; intros s packet Hn Hpos Hwire;
    rewrite send_until_done_eq;
    pose proof (size_frame (m_data packet)) as Hsize;
    destruct (@send_packet_run _ _ s packet)
      as (st & s1 & pk & cs & Heq & _ & Ho & _ & _ & _ & Hd & Hb0 & Hup & Hsb
          & Hdone & _ & _ & Hsp & Hcase); [lia| |lia|];
    rewrite Heq;
    destruct (pipe_run Ho) as (Hw & _ & Hlen);
    (assert (Hw1 : wire (os s1)
                   = firstn (Z.to_nat (m_sendPos packet + bytes_sent cs))
                            (frame (m_data packet)))
       by (rewrite Hw, Hwire, Hsb;
           replace (Z.to_nat (m_sendPos packet + bytes_sent cs))
             with (Z.to_nat (m_sendPos packet) + Z.to_nat (bytes_sent cs))%nat
             by lia;
           symmetry; apply firstn_plus));
    (destruct Hcase as [-> | [(cs0 & o & e & -> & -> & Hlt) | (? & _)]];
     [ (* Done: the last byte of the block was taken *)
       exists s1, pk; split; [reflexivity|];
       split; [rewrite Hw1, (Hdone eq_refl); apply firstn_all2;
               unfold size; lia|];
       split; assumption
     | (* a transport call failed: on the pipe, it would block *)
       destruct (@pipe_run_blocked _ cs0 _ _ Ho) as ((o' & Hwb) & Hshort);
       [left; eauto|];
       assert (He : e = WouldBlock)
         by (destruct Hwb as [Hwb | (? & ? & Hwb)]; congruence);
       subst e
     | lia ]).
  - exfalso. lia.
  - set (sent := bytes_sent (cs0 ++ [CallSend o (-1) WouldBlock])) in *.
    assert (Hpk : m_sendPos pk = m_sendPos packet + sent).
    { rewrite Hsp. unfold send_failure. simpl.
      destruct (Z.eqb_spec sent 0); simpl; lia. }
    assert (Hretry :
      match send_failure WouldBlock sent, S n with
      | Partial, S fuel => send_until_done fuel s1 pk
      | NotReady, S fuel => send_until_done fuel s1 pk
      | _, _ => Some (send_failure WouldBlock sent, s1, pk)
      end = send_until_done n s1 pk).
    { unfold send_failure. simpl. destruct (sent =? 0); reflexivity. }
    rewrite Hretry.
    destruct (IH s1 pk) as (s' & pk' & Heq' & Hw' & Hd' & Hp');
      [lia | rewrite Hd, Hpk; lia | rewrite Hd, Hpk; exact Hw1 |].
    exists s', pk'. rewrite Hd in *. repeat split; assumption || congruence.
Qed.

(** ** Round trip *)

(** C1, as the code has it: a payload shorter than 2^32 bytes, sent by
    [send(Packet&)] over the pipe under any schedule of fragments and "would
    block" failures (one byte per call included), with the caller retrying
    on Partial and NotReady, puts exactly its frame on the wire; and the
    peer, calling [receive(Packet&)] under any schedule until it returns
    something else than NotReady, gets Done and a packet holding exactly the
    payload, with nothing left pending or in flight. *)
Theorem packet_round_trip :
  forall (payload : list byte) (send_schedule recv_schedule : list Event)
         (stale : Packet),
    size payload < 4294967296 ->
    exists sender packet_tx receiver packet_rx,
      send_until_done (length send_schedule) (pipe_socket [] send_schedule)
                      (mkPacket payload 0)
      = Some (Done, sender, packet_tx)
      /\ wire (os sender) = frame payload
      /\ receive_until_done (length recv_schedule)
           (pipe_socket (wire (os sender)) recv_schedule) stale
         = Some (Done, receiver, packet_rx)
      /\ m_data packet_rx = payload
      /\ m_pendingPacket receiver = PendingPacket_init
      /\ incoming (os receiver) = [].
Proof.
  intros payload send_schedule recv_schedule stale Hsmall.
  pose proof (size_nonneg payload) as Hp0.
  destruct (@send_until_done_pipe (length send_schedule)
              (pipe_socket [] send_schedule) (mkPacket payload 0))
    as (sender & ptx & Hsend & Hwire & _).
  { apply Nat.le_refl. }
  { cbn [m_sendPos m_data]. rewrite size_frame. lia. }
  { reflexivity. }
  cbn [m_data] in Hwire.
  destruct (@receive_until_done_pipe (length recv_schedule)
              (pipe_socket (wire (os sender)) recv_schedule) stale payload [])
    as (receiver & prx & Hrecv & Hdata & Hpend & Hinc).
  { apply Nat.le_refl. }
  { exact pending_init_ok. }
  { rewrite Hwire, app_nil_r. reflexivity. }
  { exact Hsmall. }
  exists sender, ptx, receiver, prx. repeat split; assumption.
Qed.

(** A three-byte payload, sent one byte per call with a "would block" in
    the middle of the size, and received one byte per call with a "would
    block" in the size and another in the data. *)
Lemma packet_round_trip_witness :
  let payload := [x0a; x0b; x0c] in
  let send_schedule := [Chunk 0; Chunk 0; Block; Chunk 0; Chunk 0; Chunk 0;
                        Block; Chunk 0; Chunk 0] in
  let recv_schedule := [Chunk 0; Block; Chunk 0; Chunk 0; Chunk 0; Chunk 0;
                        Block; Chunk 0; Chunk 0] in
  size payload < 4294967296
  /\ exists sender packet_tx receiver packet_rx,
      send_until_done (length send_schedule) (pipe_socket [] send_schedule)
                      (mkPacket payload 0)
      = Some (Done, sender, packet_tx)
      /\ wire (os sender) = frame payload
      /\ receive_until_done (length recv_schedule)
           (pipe_socket (wire (os sender)) recv_schedule) (mkPacket [x07] 2)
         = Some (Done, receiver, packet_rx)
      /\ m_data packet_rx = payload
      /\ m_pendingPacket receiver = PendingPacket_init
      /\ incoming (os receiver) = [].
Proof.
  intros payload send_schedule recv_schedule.
  assert (Hsmall : size payload < 4294967296) by (unfold size; simpl; lia).
  split; [exact Hsmall|].
  exact (@packet_round_trip payload send_schedule recv_schedule
           (mkPacket [x07] 2) Hsmall).
Defined.

(** A payload of exactly 2^32 bytes goes out behind a size prefix of 0,
    and the peer returns Done with an empty packet. *)
Lemma round_trip_truncates (payload : list byte) :
  size payload = 4294967296 ->
  exists sender packet_tx receiver packet_rx,
    send_until_done 0 (pipe_socket [] []) (mkPacket payload 0)
    = Some (Done, sender, packet_tx)
    /\ wire (os sender) = [x00; x00; x00; x00] ++ payload
    /\ receive_until_done 0 (pipe_socket (wire (os sender)) [])
                          (mkPacket [] 0)
       = Some (Done, receiver, packet_rx)
    /\ m_data packet_rx = []
    /\ m_data packet_rx <> payload.
Proof.
  intros Hsize.
  assert (Hframe : frame payload = frame [] ++ payload).
  { unfold frame. rewrite Hsize. reflexivity. }
  destruct (@send_until_done_pipe 0 (pipe_socket [] []) (mkPacket payload 0))
    as (sender & ptx & Hsend & Hwire & _).
  { apply Nat.le_refl. }
  { cbn [m_sendPos m_data]. rewrite size_frame. lia. }
  { reflexivity. }
  cbn [m_data] in Hwire.
  destruct (@receive_until_done_pipe 0 (pipe_socket (wire (os sender)) [])
              (mkPacket [] 0) [] payload)
    as (receiver & prx & Hrecv & Hdata & _).
  { apply Nat.le_refl. }
  { exact pending_init_ok. }
  { rewrite Hwire, Hframe. reflexivity. }
  { unfold size. simpl. lia. }
  exists sender, ptx, receiver, prx.
  split; [exact Hsend|]. split; [rewrite Hwire, Hframe; reflexivity|].
  split; [exact Hrecv|]. split; [exact Hdata|].
  rewrite Hdata. intros Hnil. rewrite <- Hnil in Hsize.
  unfold size in Hsize. simpl in Hsize. lia.
Qed.

(** The claim C1 is stated for every payload length.  The size prefix is the
    length cast to 32 bits (line 329): with a payload of 2^32 zero bytes and
    a transport that never blocks, the peer is handed an empty packet. *)
Lemma round_trip_fails_at_4GiB :
  let payload := repeat x00 (Z.to_nat 4294967296) in
  exists sender packet_tx receiver packet_rx,
    send_until_done 0 (pipe_socket [] []) (mkPacket payload 0)
    = Some (Done, sender, packet_tx)
    /\ wire (os sender) = [x00; x00; x00; x00] ++ payload
    /\ receive_until_done 0 (pipe_socket (wire (os sender)) [])
                          (mkPacket [] 0)
       = Some (Done, receiver, packet_rx)
    /\ m_data packet_rx = []
    /\ m_data packet_rx <> payload.
Proof.
  intros payload. apply round_trip_truncates.
  unfold payload, size. rewrite repeat_length. apply Z2Nat.id. lia.
Qed.

(** * Further properties of the code *)

(** ** Raw send, continued *)

Section SendOverload.

Context {T : Type} `{Transport T}.

(** [TcpSocket::send(const std::byte*, std::size_t)] (lines 225-233): warns
    on the error stream when the socket is non-blocking, then sends and
    drops the count, a local declared without a value (line 230).  Returns
    whether it warned, and the status. *)
Definition send_simple (s : TcpSocket T) (data : Ptr (list byte)) (sz : Z)
  : option (bool * Status * TcpSocket T) :=
  let warned := negb (isBlocking s) in
  match send s data sz Unassigned with
  | None => None
  | Some (status, _, s') => Some (warned, status, s')
  end.

End SendOverload.

Lemma send_failure_NotReady_inv (e : OsError) (sent : Z) :
  send_failure e sent = NotReady -> sent = 0.
Proof.
  unfold send_failure.
  destruct e; simpl; destruct (Z.eqb_spec sent 0); simpl; auto; discriminate.
Qed.

(** X1: a call of [send] on a real buffer of [sz > 0] bytes hands the
    transport the first [sent] bytes of the buffer, in order and once each,
    whatever status it returns and whatever the caller's count held; the
    calls logged are the calls of the transport, made one after the other
    from the state it was in; it returns Done exactly when that is the
    whole buffer.  The overload without the count returns the same status
    on the same socket, and warns exactly when the socket is non-blocking. *)
Theorem send_takes_prefix :
  forall (T : Type) (TR : Transport T) (s : TcpSocket T)
         (d : list byte) (sz : Z),
    0 < sz <= size d ->
    exists st sent s' cs,
      (forall v, send s (Addr d) sz v = Some (st, Assigned sent, s'))
      /\ send_simple s (Addr d) sz = Some (negb (m_isBlocking s), st, s')
      /\ calls s' = calls s ++ cs
      /\ os_run (os s) cs (os s')
      /\ 0 <= sent <= sz
      /\ bytes_sent cs = sent
      /\ sent_bytes cs = firstn (Z.to_nat sent) d
      /\ (st = Done <-> sent = sz).
Proof.
  intros T TR s d sz Hsz.
  destruct (send_run s d Hsz)
    as (st & sent & s' & cs & Heq & Hc & Ho & _ & _ & _ & Hs & Hd & Hbs & Hsb
        & _).
  exists st, sent, s', cs.
  split; [exact Heq|].
  split; [unfold send_simple, isBlocking; rewrite Heq; reflexivity|].
  repeat (split; [assumption|]). exact Hd.
Qed.

Lemma send_takes_prefix_witness :
  let s := pipe_socket [] [Chunk 1; Block] in
  let d := [x01; x02; x03] in
  0 < 3 <= size d
  /\ exists st sent s' cs,
      (forall v, send s (Addr d) 3 v = Some (st, Assigned sent, s'))
      /\ send_simple s (Addr d) 3 = Some (negb (m_isBlocking s), st, s')
      /\ calls s' = calls s ++ cs
      /\ os_run (os s) cs (os s')
      /\ 0 <= sent <= 3
      /\ bytes_sent cs = sent
      /\ sent_bytes cs = firstn (Z.to_nat sent) d
      /\ (st = Done <-> sent = 3).
Proof.
  intros s d.
  assert (Hsz : 0 < 3 <= size d) by (unfold size; simpl; lia).
  split; [exact Hsz|].
  exact (@send_takes_prefix Pipe _ s d 3 Hsz).
Defined.

(** X2: what the status of [send] says about progress.  NotReady means that
    no byte was handed over in the call; Partial means that at least one was
    and at least one is left. *)
Theorem send_status_progress :
  forall (T : Type) (TR : Transport T) (s : TcpSocket T)
         (d : list byte) (sz : Z),
    0 < sz <= size d ->
    exists st sent s' cs,
      (forall v, send s (Addr d) sz v = Some (st, Assigned sent, s'))
      /\ calls s' = calls s ++ cs
      /\ (st = NotReady -> sent = 0 /\ sent_bytes cs = [])
      /\ (st = Partial -> 0 < sent < sz).
Proof.
  intros T TR s d sz Hsz.
  destruct (send_run s d Hsz)
    as (st & sent & s' & cs & Heq & Hc & _ & _ & _ & _ & Hs & Hd & Hbs & Hsb
        & Hpart & _ & Hcase).
  exists st, sent, s', cs.
  split; [exact Heq|]. split; [exact Hc|]. split.
  - intros ->.
    destruct Hcase as [Hd'|(cs0 & o & e & _ & Hf & _)]; [discriminate|].
    symmetry in Hf. apply send_failure_NotReady_inv in Hf.
    split; [exact Hf | rewrite Hsb, Hf; reflexivity].
  - intros ->. apply proj1 in Hpart. destruct (Hpart eq_refl) as (_ & Hne).
    destruct Hcase as [Hd'|(cs0 & o & e & _ & _ & Hlt)]; [discriminate|]. lia.
Qed.

Lemma send_status_progress_witness :
  let s := pipe_socket [] [Chunk 1; Block] in
  let d := [x01; x02; x03] in
  0 < 3 <= size d
  /\ exists st sent s' cs,
      (forall v, send s (Addr d) 3 v = Some (st, Assigned sent, s'))
      /\ calls s' = calls s ++ cs
      /\ (st = NotReady -> sent = 0 /\ sent_bytes cs = [])
      /\ (st = Partial -> 0 < sent < 3).
Proof.
  intros s d.
  assert (Hsz : 0 < 3 <= size d) by (unfold size; simpl; lia).
  split; [exact Hsz|].
  exact (@send_status_progress Pipe _ s d 3 Hsz).
Defined.

(** ** Sending a packet over several calls *)

Section SendResume.

Context {T : Type} `{Transport T}.

(** What calls of [send(Packet&)] starting at [s] and [packet] have done
    when they stand at [s'] and [packet'] with status [st], having logged
    the calls [cs]. *)
Definition sent_so_far (s : TcpSocket T) (packet : Packet) (st : Status)
    (s' : TcpSocket T) (packet' : Packet) (cs : list Call) : Prop :=
  calls s' = calls s ++ cs
  /\ os_run (os s) cs (os s')
  /\ m_pendingPacket s' = m_pendingPacket s
  /\ m_data packet' = m_data packet
  /\ 0 <= bytes_sent cs
  /\ m_sendPos packet + bytes_sent cs <= size (frame (m_data packet))
  /\ sent_bytes cs
     = firstn (Z.to_nat (bytes_sent cs))
              (skipn (Z.to_nat (m_sendPos packet)) (frame (m_data packet)))
  /\ (st = Done ->
      m_sendPos packet + bytes_sent cs = size (frame (m_data packet))
      /\ m_sendPos packet' = 0)
  /\ (st = Partial \/ st = NotReady ->
      m_sendPos packet' = m_sendPos packet + bytes_sent cs).

(** One call of [send(Packet&)], as the caller's loop sees it. *)
Lemma send_packet_step (s : TcpSocket T) (packet : Packet) :
  0 <= m_sendPos packet <= 4 + size (m_data packet) ->
  exists st s1 packet1 cs,
    send_packet s packet = Some (st, s1, packet1)
    /\ sent_so_far s packet st s1 packet1 cs.
Proof.
  intros Hpos.
  destruct (send_packet_run s packet Hpos)
    as (st & s1 & pk & cs & Heq & Hc & Ho & Hp & _ & _ & Hd & Hb0 & Hup & Hsb
        & Hdone & _ & _ & Hsp & Hcase).
  exists st, s1, pk, cs. split; [assumption|]. unfold sent_so_far.
  repeat (split; [assumption|]).
  split.
  - intros ->. split; [apply Hdone; reflexivity | exact Hsp].
  - intros [-> | ->]; [exact Hsp|].
    rewrite Hsp.
    destruct Hcase as [Hd'|[(cs0 & o & e & _ & Hf & _)|(_ & Hf & _)]];
      try discriminate.
    symmetry in Hf. apply send_failure_NotReady_inv in Hf. lia.
Qed.

(** A retry continues the account of the calls before it. *)
Lemma sent_so_far_retry s packet st s1 pk cs st' s' pk' cs' :
  0 <= m_sendPos packet ->
  sent_so_far s packet st s1 pk cs ->
  st = Partial \/ st = NotReady ->
  sent_so_far s1 pk st' s' pk' cs' ->
  sent_so_far s packet st' s' pk' (cs ++ cs').
Proof.
  intros Hpos (Hc & Ho & Hp & Hd & Hb0 & Hup & Hsb & _ & Hretry) Hst
         (Hc' & Ho' & Hp' & Hd' & Hb0' & Hup' & Hsb' & Hdone' & Hretry').
  specialize (Hretry Hst). rewrite Hd, Hretry in *.
  unfold sent_so_far.
  split; [rewrite Hc', Hc, app_assoc; reflexivity|].
  split; [eapply os_run_app; eauto|].
  split; [congruence|]. split; [congruence|].
  rewrite bytes_sent_app, sent_bytes_app.
  split; [lia|]. split; [lia|]. split.
  - rewrite Hsb, Hsb'.
    replace (Z.to_nat (bytes_sent cs + bytes_sent cs'))
      with (Z.to_nat (bytes_sent cs) + Z.to_nat (bytes_sent cs'))%nat by lia.
    rewrite firstn_plus, skipn_skipn.
    replace (Z.to_nat (bytes_sent cs) + Z.to_nat (m_sendPos packet))%nat
      with (Z.to_nat (m_sendPos packet + bytes_sent cs)) by lia.
    reflexivity.
  - split.
    + intros Hd1. destruct (Hdone' Hd1). split; [lia | assumption].
    + intros Hr1. rewrite (Hretry' Hr1). lia.
Qed.

(** The caller's loop over [send(Packet&)], whole, on any transport. *)
Lemma send_until_done_run (n : nat) :
  forall (s : TcpSocket T) (packet : Packet),
    0 <= m_sendPos packet <= 4 + size (m_data packet) ->
    exists st s' packet' cs,
      send_until_done n s packet = Some (st, s', packet')
      /\ sent_so_far s packet st s' packet' cs.
Proof.
  induction n as [|n IH]; intros s packet Hpos;
    rewrite send_until_done_eq;
    destruct (send_packet_step s packet Hpos)
      as (st & s1 & pk & cs & Heq & Hfar);
    rewrite Heq.
  - exists st, s1, pk, cs. split; [destruct st; reflexivity | exact Hfar].
  - assert (Hgo : st = Partial \/ st = NotReady ->
              exists st' s' packet' cs',
                send_until_done n s1 pk = Some (st', s', packet')
                /\ sent_so_far s packet st' s' packet' cs').
    { intros Hst.
      pose proof (size_frame (m_data packet)) as Hsize.
      destruct (IH s1 pk) as (st' & s' & pk' & cs' & Heq' & Hfar').
      { destruct Hfar as (_ & _ & _ & Hd & Hb0 & Hup & _ & _ & Hretry).
        rewrite Hd, (Hretry Hst). lia. }
      exists st', s', pk', (cs ++ cs').
      split; [exact Heq' | eapply sent_so_far_retry; eauto; lia]. }
    destruct st; try (apply Hgo; auto; fail);
      eexists _, s1, pk, cs; (split; [reflexivity | exact Hfar]).
Qed.

End SendResume.

(** X3: a packet sent from offset 0 by the caller's loop over
    [send(Packet&)], on any transport and for any number of retries: the
    calls logged are the calls of the transport, made one after the other
    from the state it was in; the bytes handed to it over all the calls are
    a prefix of the frame of the payload, in order and once each; when the loop ends with
    Done they are the whole frame and the offset is back at 0, and when it
    stops on Partial or NotReady the offset kept in the packet is the number
    of bytes handed over. *)
Theorem send_resumes_exactly :
  forall (T : Type) (TR : Transport T) (s : TcpSocket T)
         (payload : list byte) (n : nat),
  exists st s' packet' cs,
    send_until_done n s (mkPacket payload 0) = Some (st, s', packet')
    /\ calls s' = calls s ++ cs
    /\ os_run (os s) cs (os s')
    /\ sent_bytes cs = firstn (Z.to_nat (bytes_sent cs)) (frame payload)
    /\ (st = Done -> sent_bytes cs = frame payload /\ m_sendPos packet' = 0)
    /\ (st = Partial \/ st = NotReady -> m_sendPos packet' = bytes_sent cs).
Proof.
  intros T TR s payload n.
  pose proof (size_nonneg payload) as Hp0.
  destruct (@send_until_done_run _ _ n s (mkPacket payload 0))
    as (st & s' & pk & cs & Heq & Hc & Ho & _ & _ & Hb0 & Hup & Hsb & Hdone
        & Hretry); [cbn [m_sendPos m_data]; lia|].
  cbn [m_sendPos m_data] in *. simpl skipn in Hsb.
  exists st, s', pk, cs.
  split; [exact Heq|]. split; [exact Hc|]. split; [exact Ho|].
  split; [exact Hsb|]. split.
  - intros Hd. destruct (Hdone Hd) as (Hall & Hz). split; [|exact Hz].
    rewrite Hsb. apply firstn_all2. unfold size in *. lia.
  - intros Hr. rewrite (Hretry Hr). lia.
Qed.

(** ** The block on the wire *)

Lemma firstn_frame (payload : list byte) :
  firstn 4 (frame payload) = htonl_bytes (to_uint32 (size payload)).
Proof. reflexivity. Qed.

Lemma skipn_frame (payload : list byte) : skipn 4 (frame payload) = payload.
Proof. reflexivity. Qed.

(** X4: the block [send(Packet&)] builds is four bytes longer than the
    payload; the payload follows the first four bytes unchanged; and those
    four bytes, read back as the receiver reads the size (line 395), give
    the payload's length modulo 2^32. *)
Theorem send_block_header :
  forall (T : Type) (TR : Transport T) (s : TcpSocket T) (packet : Packet),
    0 <= m_sendPos packet <= 4 + size (m_data packet) ->
    exists st s' packet',
      send_packet s packet = Some (st, s', packet')
      /\ size (m_blockToSendBuffer s') = 4 + size (m_data packet)
      /\ skipn 4 (m_blockToSendBuffer s') = m_data packet
      /\ ntohl_bytes (firstn 4 (m_blockToSendBuffer s'))
         = size (m_data packet) mod 4294967296.
Proof.
  intros T TR s packet Hpos.
  destruct (send_packet_run s packet Hpos)
    as (st & s' & pk & cs & Heq & _ & _ & _ & _ & Hblock & _).
  exists st, s', pk. split; [exact Heq|]. rewrite Hblock.
  split; [apply size_frame|]. split; [apply skipn_frame|].
  rewrite firstn_frame. unfold to_uint32.
  apply ntohl_htonl. apply Z.mod_pos_bound. lia.
Qed.

Lemma send_block_header_witness :
  let s := pipe_socket [] [Block] in
  let packet := mkPacket [x0a; x0b; x0c] 2 in
  0 <= m_sendPos packet <= 4 + size (m_data packet)
  /\ exists st s' packet',
      send_packet s packet = Some (st, s', packet')
      /\ size (m_blockToSendBuffer s') = 4 + size (m_data packet)
      /\ skipn 4 (m_blockToSendBuffer s') = m_data packet
      /\ ntohl_bytes (firstn 4 (m_blockToSendBuffer s'))
         = size (m_data packet) mod 4294967296.
Proof.
  intros s packet.
  assert (Hpos : 0 <= m_sendPos packet <= 4 + size (m_data packet))
    by (unfold size; simpl; lia).
  split; [exact Hpos|].
  exact (@send_block_header Pipe _ s packet Hpos).
Defined.

(** X5: the framing is uniquely decodable.  Two byte streams that start
    with the frames of payloads shorter than 2^32 bytes and are equal carry
    the same payload and the same rest. *)
Theorem frame_prefix_free :
  forall (a b rest_a rest_b : list byte),
    size a < 4294967296 ->
    size b < 4294967296 ->
    frame a ++ rest_a = frame b ++ rest_b ->
    a = b /\ rest_a = rest_b.
Proof.
  intros a b rest_a rest_b Ha Hb Heq.
  pose proof (size_nonneg a) as Ha0. pose proof (size_nonneg b) as Hb0.
  unfold frame in Heq. rewrite <- !app_assoc in Heq.
  apply app_inv_length in Heq; [|reflexivity].
  destruct Heq as (Hhead & Hrest).
  apply (f_equal ntohl_bytes) in Hhead. unfold to_uint32 in Hhead.
  rewrite !Z.mod_small, !ntohl_htonl in Hhead by lia.
  apply app_inv_length in Hrest; [assumption|].
  unfold size in Hhead. lia.
Qed.

Lemma frame_prefix_free_witness :
  size [x0a; x0b] < 4294967296
  /\ size [x0a; x0b] < 4294967296
  /\ frame [x0a; x0b] ++ [x0c] = frame [x0a; x0b] ++ [x0c]
  /\ [x0a; x0b] = [x0a; x0b] /\ [x0c] = [x0c].
Proof.
  assert (H1 : size [x0a; x0b] < 4294967296) by (unfold size; simpl; lia).
  assert (H2 : frame [x0a; x0b] ++ [x0c] = frame [x0a; x0b] ++ [x0c])
    by reflexivity.
  split; [exact H1|]. split; [exact H1|]. split; [exact H2|].
  exact (@frame_prefix_free [x0a; x0b] [x0a; x0b] [x0c] [x0c] H1 H1 H2).
Defined.

(** ** Receiving a packet, continued *)

(** [asks_as_needed p cs]: the receives [cs], made one after the other from
    the pending packet [p], each ask for what the packet then lacks: while
    fewer than four bytes of the size are in, the bytes of the size still
    missing; afterwards the bytes of the payload still missing, and no more
    than the 1024 of the scratch buffer; never zero.  A receive that
    returned a positive count moves the pending packet on by its bytes. *)
Fixpoint asks_as_needed (p : PendingPacket) (cs : list Call) : Prop :=
  match cs with
  | [] => True
  | CallRecv cap r w _ :: cs =>
    0 < cap <= 1024
    /\ (SizeReceived p < 4 -> cap = 4 - SizeReceived p)
    /\ (4 <= SizeReceived p ->
        cap = Z.min (ntohl_bytes (Size p) - size (Data p)) 1024)
    /\ asks_as_needed (if 0 <? r then absorb p w else p) cs
  | _ :: _ => False
  end.

Lemma chunk_capacity_le (p : PendingPacket) :
  pending_ok p -> chunk_capacity p <= 1024.
Proof.
  intros (_ & HR & _ & _). unfold chunk_capacity.
  destruct (Z.ltb_spec (SizeReceived p) 4); lia.
Qed.

Lemma chunk_capacity_cases (p : PendingPacket) :
  (SizeReceived p < 4 -> chunk_capacity p = 4 - SizeReceived p)
  /\ (4 <= SizeReceived p ->
      chunk_capacity p = Z.min (ntohl_bytes (Size p) - size (Data p)) 1024).
Proof.
  unfold chunk_capacity.
  destruct (Z.ltb_spec (SizeReceived p) 4); split; intros; lia.
Qed.

Lemma absorbs_asks p cs p' :
  absorbs p cs p' -> pending_ok p ->
  forall tail, asks_as_needed p' tail -> asks_as_needed p (cs ++ tail).
Proof.
  induction 1 as [|p r w e cs p' Hr Hw _ IH]; intros Hok tail Htail;
    [exact Htail|].
  pose proof (chunk_capacity_le Hok) as Hle.
  destruct (chunk_capacity_cases p) as (Hsize & Hdata).
  cbn [app asks_as_needed].
  split; [lia|]. split; [exact Hsize|]. split; [exact Hdata|].
  destruct (Z.ltb_spec 0 r); [|lia].
  apply IH; [apply absorb_ok; [assumption | lia] | exact Htail].
Qed.

(** X6: what a call of [receive(Packet&)] on a well-formed pending packet
    asks of the transport.  The calls logged are the calls of the
    transport, made one after the other from the state it was in.  None
    asks for zero bytes, nor for more than the 1024 bytes of the scratch
    buffer.  While fewer than four bytes of the size are in, each asks for
    exactly the bytes of the size still missing; afterwards each asks for
    the bytes of the payload still missing, or 1024 if that is less.  The
    size field keeps its four bytes of memory. *)
Theorem receive_asks_within_buffer :
  forall (T : Type) (TR : Transport T) (s : TcpSocket T) (packet : Packet),
    pending_ok (m_pendingPacket s) ->
    exists st s' packet' cs,
      receive_packet s packet = Some (st, s', packet')
      /\ calls s' = calls s ++ cs
      /\ os_run (os s) cs (os s')
      /\ asks_as_needed (m_pendingPacket s) cs
      /\ length (Size (m_pendingPacket s')) = 4%nat.
Proof.
  intros T TR s packet Hok.
  destruct (receive_packet_run s packet)
    as (st & s' & pk & cs & tail & pmid & Heq & Hc & Ho & Habs & _ & _ & Hout).
  pose proof (absorbs_ok Habs Hok) as Hokm.
  exists st, s', pk, (cs ++ tail).
  split; [exact Heq|]. split; [exact Hc|]. split; [exact Ho|].
  destruct Hout as [(_ & -> & _ & -> & _) | (_ & (c & -> & Hf) & Hinc & -> & _)].
  - split; [apply (absorbs_asks Habs Hok); exact I | reflexivity].
  - split; [|apply Hokm].
    apply (absorbs_asks Habs Hok).
    destruct Hf as (r & e & -> & Hr).
    pose proof (capacity_pos Hokm Hinc) as Hpos.
    pose proof (chunk_capacity_le Hokm) as Hle.
    destruct (chunk_capacity_cases pmid) as (Hsize & Hdata).
    cbn [asks_as_needed].
    split; [lia|]. split; [exact Hsize|]. split; [exact Hdata|].
    destruct (0 <? r); exact I.
Qed.

(** A receiver that gets one byte of the size, then the other three, then
    the two bytes of the payload: it asks for 4, for 3 and for 2. *)
Lemma receive_asks_within_buffer_witness :
  let s := pipe_socket [x00; x00; x00; x02; x0a; x0b]
                       [Chunk 0; Chunk 5; Chunk 5] in
  pending_ok (m_pendingPacket s)
  /\ exists s' cs,
      receive_packet s (mkPacket [] 0)
      = Some (Done, s', mkPacket [x0a; x0b] 0)
      /\ calls s' = calls s ++ cs
      /\ cs = [CallRecv 4 1 [x00] (os_errno (os s'));
               CallRecv 3 3 [x00; x00; x02] (os_errno (os s'));
               CallRecv 2 2 [x0a; x0b] (os_errno (os s'))]
      /\ asks_as_needed (m_pendingPacket s) cs
      /\ length (Size (m_pendingPacket s')) = 4%nat.
Proof.
  intros s. split; [exact pending_init_ok|].
  destruct (@receive_asks_within_buffer Pipe _ s (mkPacket [] 0)
              pending_init_ok)
    as (st & s' & pk & cs & Heq & Hc & _ & Hasks & Hlen).
  pose proof Heq as Hrun. vm_compute in Hrun.
  assert (Hst : st = Done /\ pk = mkPacket [x0a; x0b] 0)
    by (split; congruence).
  destruct Hst as (Hst & Hpk).
  exists s', cs.
  split; [rewrite Heq, Hst, Hpk; reflexivity|].
  split; [exact Hc|]. split; [|split; [exact Hasks | exact Hlen]].
  injection Hrun as _ Hs' _. rewrite <- Hs' in Hc |- *.
  vm_compute in Hc. apply (app_inv_head []). exact (eq_sym Hc).
Defined.

Section ReceiveResume.

Context {T : Type} `{Transport T}.

(** What calls of [receive(Packet&)] starting at [s] have done when they
    stand at [s'] with status [st] and the caller's packet [packet'], having
    logged the calls [cs]: every byte received is accounted for, either in
    the pending packet or, on Done, in a four-byte size followed by the
    payload delivered, whose length the size gives. *)
Definition received_so_far (s : TcpSocket T) (st : Status)
    (s' : TcpSocket T) (packet' : Packet) (cs : list Call) : Prop :=
  calls s' = calls s ++ cs
  /\ os_run (os s) cs (os s')
  /\ (st = Done ->
      m_pendingPacket s' = PendingPacket_init
      /\ exists hdr,
          length hdr = 4%nat
          /\ consumed (m_pendingPacket s) ++ concat (map recv_bytes cs)
             = hdr ++ m_data packet'
          /\ ntohl_bytes hdr = size (m_data packet'))
  /\ (st <> Done ->
      pending_ok (m_pendingPacket s')
      /\ consumed (m_pendingPacket s')
         = consumed (m_pendingPacket s) ++ concat (map recv_bytes cs)
      /\ m_data packet' = []).

(** One call of [receive(Packet&)], as the caller's loop sees it. *)
Lemma receive_packet_step (s : TcpSocket T) (packet : Packet) :
  pending_ok (m_pendingPacket s) ->
  exists st s1 packet1 cs,
    receive_packet s packet = Some (st, s1, packet1)
    /\ received_so_far s st s1 packet1 cs.
Proof.
  intros Hok.
  destruct (receive_packet_run s packet)
    as (st & s1 & pk & cs & tail & pmid & Heq & Hc & Ho & Habs & _ & _ & Hout).
  pose proof (absorbs_ok Habs Hok) as Hokm.
  pose proof (absorbs_consumed Habs Hok) as Hcons.
  exists st, s1, pk, (cs ++ tail). split; [exact Heq|].
  split; [exact Hc|]. split; [exact Ho|].
  destruct Hout as [(-> & -> & Hcomp & Hp & ->)
                   | (Hnd & (c & -> & Hf) & _ & Hp & ->)].
  - split; [|congruence]. intros _. split; [exact Hp|].
    destruct Hokm as (HS & HR & _ & HL). destruct Hcomp as (Hge & Hfull).
    exists (Size pmid). split; [exact HS|].
    rewrite app_nil_r, m_data_delivered, <- Hcons.
    split; [|specialize (HL ltac:(lia)); lia].
    unfold consumed. rewrite firstn_all2 by lia. reflexivity.
  - split; [congruence|]. intros _. rewrite Hp.
    split; [exact Hokm|]. split; [|reflexivity].
    destruct Hf as (r & e & -> & _).
    rewrite map_app, concat_app. simpl. rewrite !app_nil_r. exact Hcons.
Qed.

(** A retry continues the account of the calls before it. *)
Lemma received_so_far_retry s st s1 pk cs st' s' pk' cs' :
  received_so_far s st s1 pk cs ->
  st <> Done ->
  received_so_far s1 st' s' pk' cs' ->
  received_so_far s st' s' pk' (cs ++ cs').
Proof.
  intros (Hc & Ho & _ & Hmore) Hnd (Hc' & Ho' & Hdone' & Hmore').
  destruct (Hmore Hnd) as (Hok1 & Hcons1 & _).
  unfold received_so_far.
  split; [rewrite Hc', Hc, app_assoc; reflexivity|].
  split; [eapply os_run_app; eauto|].
  rewrite map_app, concat_app, app_assoc, <- Hcons1.
  split; assumption.
Qed.

(** The caller's loop over [receive(Packet&)], whole, on any transport. *)
Lemma receive_until_done_run (n : nat) :
  forall (s : TcpSocket T) (packet : Packet),
    pending_ok (m_pendingPacket s) ->
    exists st s' packet' cs,
      receive_until_done n s packet = Some (st, s', packet')
      /\ received_so_far s st s' packet' cs.
Proof.
  induction n as [|n IH]; intros s packet Hok;
    rewrite receive_until_done_eq;
    destruct (receive_packet_step s packet Hok)
      as (st & s1 & pk & cs & Heq & Hfar);
    rewrite Heq.
  - exists st, s1, pk, cs. split; [destruct st; reflexivity | exact Hfar].
  - destruct st;
      try (eexists _, s1, pk, cs; split; [reflexivity | exact Hfar]).
    destruct (IH s1 pk) as (st' & s' & pk' & cs' & Heq' & Hfar').
    { apply Hfar. discriminate. }
    exists st', s', pk', (cs ++ cs').
    split; [exact Heq'|].
    eapply received_so_far_retry; eauto. discriminate.
Qed.

End ReceiveResume.

(** X7: the caller's loop over [receive(Packet&)], on any transport and for
    any number of retries, started on a well-formed pending packet.  The
    calls logged are the calls of the transport, made one after the other
    from the state it was in.  When it ends with Done, the bytes pending before it followed by the bytes
    received over all the calls are exactly a four-byte size and the payload
    delivered, whose length is that size, and the pending packet is fresh.
    When it stops on another status, those bytes are exactly the bytes now
    pending, and the caller's packet is empty. *)
Theorem receive_accounts_for_every_byte :
  forall (T : Type) (TR : Transport T) (s : TcpSocket T) (packet : Packet)
         (n : nat),
    pending_ok (m_pendingPacket s) ->
    exists st s' packet' cs,
      receive_until_done n s packet = Some (st, s', packet')
      /\ calls s' = calls s ++ cs
      /\ os_run (os s) cs (os s')
      /\ (st = Done ->
          m_pendingPacket s' = PendingPacket_init
          /\ exists hdr,
              length hdr = 4%nat
              /\ consumed (m_pendingPacket s) ++ concat (map recv_bytes cs)
                 = hdr ++ m_data packet'
              /\ ntohl_bytes hdr = size (m_data packet'))
      /\ (st <> Done ->
          consumed (m_pendingPacket s')
          = consumed (m_pendingPacket s) ++ concat (map recv_bytes cs)
          /\ m_data packet' = []).
Proof.
  intros T TR s packet n Hok.
  destruct (@receive_until_done_run _ _ n s packet Hok)
    as (st & s' & pk & cs & Heq & Hc & Ho & Hdone & Hmore).
  exists st, s', pk, cs.
  split; [exact Heq|]. split; [exact Hc|]. split; [exact Ho|].
  split; [exact Hdone|].
  intros Hnd. destruct (Hmore Hnd) as (_ & Hcons & Hnil). auto.
Qed.

Lemma receive_accounts_for_every_byte_witness :
  let s := pipe_socket [x00; x00; x00; x02; x0a; x0b; x0c]
                       [Chunk 0; Block; Chunk 5; Block] in
  pending_ok (m_pendingPacket s)
  /\ exists st s' packet' cs,
      receive_until_done 1 s (mkPacket [x07] 0) = Some (st, s', packet')
      /\ calls s' = calls s ++ cs
      /\ os_run (os s) cs (os s')
      /\ (st = Done ->
          m_pendingPacket s' = PendingPacket_init
          /\ exists hdr,
              length hdr = 4%nat
              /\ consumed (m_pendingPacket s) ++ concat (map recv_bytes cs)
                 = hdr ++ m_data packet'
              /\ ntohl_bytes hdr = size (m_data packet'))
      /\ (st <> Done ->
          consumed (m_pendingPacket s')
          = consumed (m_pendingPacket s) ++ concat (map recv_bytes cs)
          /\ m_data packet' = []).
Proof.
  intros s. split; [exact pending_init_ok|].
  exact (@receive_accounts_for_every_byte Pipe _ s (mkPacket [x07] 0) 1
           pending_init_ok).
Defined.

(** ** Connecting, continued *)

Definition is_select (c : Call) : bool :=
  match c with CallSelect _ _ _ => true | _ => false end.

Definition is_connect (c : Call) : bool :=
  match c with CallConnect _ => true | _ => false end.

(** A return of [connect], for the facts below: the result and the calls. *)
Ltac connect_ends :=
  eexists _, _, _; split; [reflexivity|];
  socket_fields; rewrite <- !app_assoc;
  split; [reflexivity|].

(** X8: [disconnect] and [connect] drop whatever part of a packet was
    pending: after either, on every path of [connect] and whatever its
    result, the pending packet is the empty one, so no byte received on the
    old connection is taken for the next packet.  Neither touches the block
    kept for sending, and [disconnect] keeps the blocking mode. *)
Theorem connect_resets_pending :
  forall (T : Type) (TR : Transport T) (s : TcpSocket T)
         (remoteAddress remotePort timeout : Z),
    m_pendingPacket (disconnect s) = PendingPacket_init
    /\ consumed (m_pendingPacket (disconnect s)) = []
    /\ m_isBlocking (disconnect s) = m_isBlocking s
    /\ m_blockToSendBuffer (disconnect s) = m_blockToSendBuffer s
    /\ exists st s',
        connect s remoteAddress remotePort timeout = (st, s')
        /\ m_pendingPacket s' = PendingPacket_init
        /\ m_blockToSendBuffer s' = m_blockToSendBuffer s.
Proof.
  intros T TR s remoteAddress remotePort timeout.
  repeat (split; [reflexivity|]).
  unfold_connect.
  destruct (timeout <=? 0).
  - destruct (os_connect _ _ _) as [r t1]. socket_fields.
    destruct (r =? -1); eexists _, _; repeat split.
  - destruct (m_isBlocking s); socket_fields;
      destruct (os_connect _ _ _) as [r t1]; socket_fields;
      destruct (r >=? 0); cbn [negb]; try (eexists _, _; repeat split; fail).
    destruct (is_NotReady (getErrorStatus (os_errno t1)));
      [|eexists _, _; repeat split].
    destruct (os_select_write _ _ _) as [r2 t2]. socket_fields.
    destruct (r2 >? 0); [|eexists _, _; repeat split].
    destruct (os_valid t2); [|eexists _, _; repeat split].
    destruct (os_getpeername t2) as [[r3 a] t3]. socket_fields.
    destruct (negb (r3 =? -1)); eexists _, _; repeat split.
Qed.

(** X9: when [connect] attempts and when it waits.  On every path it makes
    exactly one connection attempt.  It calls [select] exactly when the
    timeout is positive, the socket was blocking, and the attempt failed
    with "would block / in progress".  Without a timeout the result is Done
    unless the attempt returned -1; with a timeout it is Done when the
    attempt returned 0 or more, and the translated error when the attempt
    failed for another reason than "would block". *)
Theorem connect_attempts_once :
  forall (T : Type) (TR : Transport T) (s : TcpSocket T)
         (remoteAddress remotePort timeout : Z),
    let t0 := os_create (os_close (os s)) in
    let attempt :=
      os_connect (if (0 <? timeout) && m_isBlocking s
                  then os_setblocking t0 false else t0)
                 remoteAddress remotePort in
    let rc := fst attempt in
    let status := getErrorStatus (os_errno (snd attempt)) in
    exists st s' cs,
      connect s remoteAddress remotePort timeout = (st, s')
      /\ calls s' = calls s ++ cs
      /\ filter is_connect cs = [CallConnect rc]
      /\ existsb is_select cs
         = (0 <? timeout) && m_isBlocking s && (rc <? 0)
           && is_NotReady status
      /\ (timeout <= 0 -> st = if rc =? -1 then status else Done)
      /\ (0 < timeout -> 0 <= rc -> st = Done)
      /\ (0 < timeout -> rc < 0 -> status <> NotReady -> st = status).
Proof.
  intros T TR s remoteAddress remotePort timeout.
  unfold_connect.
  destruct (Z.leb_spec timeout 0) as [Hle|Hgt].
  - destruct (Z.ltb_spec 0 timeout); [lia|]. cbn [andb].
    destruct (os_connect _ _ _) as [r t1]. socket_fields. cbn [fst snd].
    destruct (r =? -1) eqn:Hr; connect_ends;
      (split; [reflexivity|]); (split; [reflexivity|]);
      (split; [intros _; reflexivity|]); split; intros; lia.
  - destruct (Z.ltb_spec 0 timeout); [|lia]. cbn [andb].
    destruct (m_isBlocking s) eqn:Hb; socket_fields;
      destruct (os_connect _ _ _) as [r t1]; socket_fields; cbn [fst snd];
      destruct (Z.geb_spec r 0) as [Hge|Hlt]; cbn [negb];
      (destruct (Z.ltb_spec r 0); [try lia | try lia]); cbn [andb].
    + connect_ends. split; [reflexivity|]. split; [reflexivity|].
      split; [intros; lia|]. split; [reflexivity | intros; lia].
    + destruct (getErrorStatus (os_errno t1)) eqn:Hst; cbn [is_NotReady];
        try (connect_ends; (split; [reflexivity|]); (split; [reflexivity|]);
             (split; [intros; lia|]);
             (split; [intros; lia | intros; reflexivity]); fail).
      destruct (os_select_write _ _ _) as [r2 t2]. socket_fields.
      destruct (r2 >? 0).
      * destruct (os_valid t2).
        -- destruct (os_getpeername t2) as [[r3 a] t3]. socket_fields.
           destruct (negb (r3 =? -1)); connect_ends;
             (split; [reflexivity|]); (split; [reflexivity|]);
             (split; [intros; lia|]);
             (split; [intros; lia | intros ? ? Hne; congruence]).
        -- connect_ends. split; [reflexivity|]. split; [reflexivity|].
           split; [intros; lia|].
           split; [intros; lia | intros ? ? Hne; congruence].
      * connect_ends. split; [reflexivity|]. split; [reflexivity|].
        split; [intros; lia|].
        split; [intros; lia | intros ? ? Hne; congruence].
    + connect_ends. split; [reflexivity|]. split; [reflexivity|].
      split; [intros; lia|]. split; [reflexivity | intros; lia].
    + connect_ends. split; [reflexivity|].
      split; [rewrite !andb_false_r || reflexivity; reflexivity|].
      split; [intros; lia|]. split; [intros; lia | reflexivity].
Qed.

(** ** Endpoint queries *)

(** [ntohs] of the 16-bit value whose memory is the given bytes. *)
Definition ntohs_bytes (m : list byte) : Z :=
  Z_of_byte (nth 0 m x00) * 256 + Z_of_byte (nth 1 m x00).

Lemma ntohs_bytes_range (m : list byte) : 0 <= ntohs_bytes m <= 65535.
Proof.
  unfold ntohs_bytes.
  pose proof (Z_of_byte_range (nth 0 m x00)).
  pose proof (Z_of_byte_range (nth 1 m x00)).
  lia.
Qed.

Section Endpoints.

Context {T : Type} `{Transport T}.

(** [getsockname] on the handle: the return value, the memory of the
    [sin_port] it fills in, and the next state of the transport. *)
Variable os_getsockname : T -> Z * list byte * T.

(** The memory of the [sin_port] that [getpeername] fills in beside the
    address. *)
Variable os_peer_port : T -> list byte.

(** [TcpSocket::getLocalPort] (lines 64-79).  The method is [const]: of the
    object it uses the handle only. *)
Definition getLocalPort (t : T) : Z * T :=
  if os_valid t then
    let '(r, sin_port, t') := os_getsockname t in
    if negb (r =? -1) then (ntohs_bytes sin_port, t') else (0, t')
  else (0, t).

(** [TcpSocket::getRemotePort] (lines 102-117). *)
Definition getRemotePort (s : TcpSocket T) : Z * TcpSocket T :=
  if os_valid (os s) then
    let sin_port := os_peer_port (os s) in
    let '(r, _, s1) := sys_getpeername s in
    if negb (r =? -1) then (ntohs_bytes sin_port, s1) else (0, s1)
  else (0, s).

(** X10: the three endpoint queries never fail.  On an invalid handle they
    make no system call and return 0, 0 and no address; a port they return
    is between 0 and 65535; [getRemotePort] and [getRemoteAddress] make the
    same call with the same effect on the socket, and when there is no
    remote address the remote port is 0.  None of them touches the pending
    packet or the blocking mode. *)
Theorem endpoint_queries_never_fail :
  forall s : TcpSocket T,
    (os_valid (os s) = false ->
     getLocalPort (os s) = (0, os s)
     /\ getRemotePort s = (0, s)
     /\ getRemoteAddress s = (None, s))
    /\ 0 <= fst (getLocalPort (os s)) <= 65535
    /\ 0 <= fst (getRemotePort s) <= 65535
    /\ snd (getRemotePort s) = snd (getRemoteAddress s)
    /\ (fst (getRemoteAddress s) = None -> fst (getRemotePort s) = 0)
    /\ m_pendingPacket (snd (getRemotePort s)) = m_pendingPacket s
    /\ m_isBlocking (snd (getRemotePort s)) = m_isBlocking s.
Proof.
  intros s. unfold getLocalPort, getRemotePort, getRemoteAddress,
    sys_getpeername.
  destruct (os_valid (os s)) eqn:Hv.
  - destruct (os_getsockname (os s)) as [[r1 p1] t1].
    destruct (os_getpeername (os s)) as [[r2 a2] t2].
    pose proof (ntohs_bytes_range p1).
    pose proof (ntohs_bytes_range (os_peer_port (os s))).
    split; [discriminate|].
    destruct (negb (r1 =? -1)), (negb (r2 =? -1)); cbn [fst snd];
      repeat split; try lia; try discriminate.
  - split; [auto|]. cbn [fst snd]. repeat split; lia.
Qed.

End Endpoints.

(** ** Sending and receiving on one socket *)

(** X11: the two directions of a socket do not disturb each other.  A call
    of [receive(Packet&)] leaves the block kept for sending and the blocking
    mode as they were, and a call of [send(Packet&)] leaves the pending
    packet and the blocking mode as they were, whatever they return. *)
Theorem send_and_receive_are_independent :
  forall (T : Type) (TR : Transport T) (s : TcpSocket T)
         (incoming_packet outgoing : Packet),
    0 <= m_sendPos outgoing <= 4 + size (m_data outgoing) ->
    (exists st s' packet',
        receive_packet s incoming_packet = Some (st, s', packet')
        /\ m_blockToSendBuffer s' = m_blockToSendBuffer s
        /\ m_isBlocking s' = m_isBlocking s)
    /\ (exists st s' packet',
        send_packet s outgoing = Some (st, s', packet')
        /\ m_pendingPacket s' = m_pendingPacket s
        /\ m_isBlocking s' = m_isBlocking s).
Proof.
  intros T TR s incoming_packet outgoing Hpos. split.
  - destruct (receive_packet_run s incoming_packet)
      as (st & s' & pk & cs & tail & pmid & Heq & _ & _ & _ & Hb & Hk & _).
    exists st, s', pk. auto.
  - destruct (send_packet_run s outgoing Hpos)
      as (st & s' & pk & cs & Heq & _ & _ & Hp & Hb & _).
    exists st, s', pk. auto.
Qed.

Lemma send_and_receive_are_independent_witness :
  let s := pipe_socket [x00; x00] [Chunk 0; Block] in
  let outgoing := mkPacket [x0a] 0 in
  0 <= m_sendPos outgoing <= 4 + size (m_data outgoing)
  /\ (exists st s' packet',
        receive_packet s (mkPacket [] 0) = Some (st, s', packet')
        /\ m_blockToSendBuffer s' = m_blockToSendBuffer s
        /\ m_isBlocking s' = m_isBlocking s)
  /\ (exists st s' packet',
        send_packet s outgoing = Some (st, s', packet')
        /\ m_pendingPacket s' = m_pendingPacket s
        /\ m_isBlocking s' = m_isBlocking s).
Proof.
  intros s outgoing.
  assert (Hpos : 0 <= m_sendPos outgoing <= 4 + size (m_data outgoing))
    by (unfold size; simpl; lia).
  split; [exact Hpos|].
  exact (@send_and_receive_are_independent Pipe _ s (mkPacket [] 0) outgoing
           Hpos).
Defined.

(** ** A stream of packets *)

Section Streams.

Context {T : Type} `{Transport T}.

(** Modelled from the spec: a caller that sends packets one after the
    other, each by the retry loop, and gives up when one does not end with
    Done. *)
Fixpoint send_packets (fuel : nat) (s : TcpSocket T)
    (payloads : list (list byte)) : option (TcpSocket T) :=
  match payloads with
  | [] => Some s
  | payload :: rest =>
    match send_until_done fuel s (mkPacket payload 0) with
    | Some (Done, s', _) => send_packets fuel s' rest
    | _ => None
    end
  end.

(** Modelled from the spec: a caller that receives [count] packets one
    after the other, each by the retry loop, and gives up when one does not
    end with Done. *)
Fixpoint receive_packets (fuel : nat) (s : TcpSocket T) (count : nat)
  : option (list (list byte) * TcpSocket T) :=
  match count with
  | O => Some ([], s)
  | S count =>
    match receive_until_done fuel s (mkPacket [] 0) with
    | Some (Done, s', packet) =>
      match receive_packets fuel s' count with
      | Some (payloads, s'') => Some (m_data packet :: payloads, s'')
      | None => None
      end
    | _ => None
    end
  end.

End Streams.

(** On the pipe the sender's loop always ends with Done. *)
Lemma send_until_done_pipe_done (n : nat) :
  forall (s : TcpSocket Pipe) (packet : Packet),
    (length (schedule (os s)) <= n)%nat ->
    0 <= m_sendPos packet < size (frame (m_data packet)) ->
    exists s' packet', send_until_done n s packet = Some (Done, s', packet').
Proof.
  induction n as [|n IH]; intros s packet Hn Hpos;
    rewrite send_until_done_eq;
    pose proof (size_frame (m_data packet)) as Hsize;
    destruct (@send_packet_run _ _ s packet)
      as (st & s1 & pk & cs & Heq & _ & Ho & _ & _ & _ & Hd & Hb0 & Hup & _
          & _ & _ & _ & Hsp & Hcase); [lia| |lia|];
    rewrite Heq;
    (destruct Hcase as [-> | [(cs0 & o & e & -> & -> & Hlt) | (? & _)]];
     [ exists s1, pk; reflexivity
     | destruct (@pipe_run_blocked _ cs0 _ _ Ho) as ((o' & Hwb) & Hshort);
       [left; eauto|];
       assert (He : e = WouldBlock)
         by (destruct Hwb as [Hwb | (? & ? & Hwb)]; congruence);
       subst e
     | lia ]).
  - exfalso. lia.
  - set (sent := bytes_sent (cs0 ++ [CallSend o (-1) WouldBlock])) in *.
    assert (Hpk : m_sendPos pk = m_sendPos packet + sent).
    { rewrite Hsp. unfold send_failure. simpl.
      destruct (Z.eqb_spec sent 0); simpl; lia. }
    assert (Hretry :
      match send_failure WouldBlock sent, S n with
      | Partial, S fuel => send_until_done fuel s1 pk
      | NotReady, S fuel => send_until_done fuel s1 pk
      | _, _ => Some (send_failure WouldBlock sent, s1, pk)
      end = send_until_done n s1 pk).
    { unfold send_failure. simpl. destruct (sent =? 0); reflexivity. }
    rewrite Hretry. apply IH; [lia | rewrite Hd, Hpk; lia].
Qed.

(** A packet sent on the pipe is appended to the wire, whole. *)
Lemma send_until_done_pipe_appends (n : nat) (s : TcpSocket Pipe)
    (payload : list byte) :
  (length (schedule (os s)) <= n)%nat ->
  exists s' packet',
    send_until_done n s (mkPacket payload 0) = Some (Done, s', packet')
    /\ wire (os s') = wire (os s) ++ frame payload
    /\ (length (schedule (os s')) <= length (schedule (os s)))%nat.
Proof.
  intros Hn. pose proof (size_nonneg payload) as Hp0.
  pose proof (size_frame payload) as Hsize.
  destruct (@send_until_done_pipe_done n s (mkPacket payload 0)) as
    (s' & pk & Heq); [assumption | cbn [m_sendPos m_data]; lia|].
  destruct (@send_until_done_run _ _ n s (mkPacket payload 0))
    as (st0 & s0 & pk0 & cs & Heq0 & _ & Ho & _ & _ & Hb0 & Hup & Hsb & Hdone
        & _); [cbn [m_sendPos m_data]; lia|].
  rewrite Heq in Heq0. inversion Heq0; subst st0 s0 pk0. clear Heq0.
  cbn [m_sendPos m_data] in *. simpl skipn in Hsb.
  destruct (Hdone eq_refl) as (Hall & _).
  destruct (pipe_run Ho) as (Hw & _ & Hlen).
  exists s', pk. split; [exact Heq|]. split; [|exact Hlen].
  rewrite Hw, Hsb. f_equal. apply firstn_all2. unfold size in *. lia.
Qed.

Lemma send_packets_pipe (payloads : list (list byte)) :
  forall (n : nat) (s : TcpSocket Pipe),
    (length (schedule (os s)) <= n)%nat ->
    exists s',
      send_packets n s payloads = Some s'
      /\ wire (os s') = wire (os s) ++ concat (map frame payloads).
Proof.
  induction payloads as [|payload rest IH]; intros n s Hn; simpl.
  - exists s. rewrite app_nil_r. auto.
  - destruct (@send_until_done_pipe_appends n s payload Hn)
      as (s1 & pk & Heq & Hw & Hlen).
    rewrite Heq.
    destruct (IH n s1) as (s' & Heq' & Hw'); [lia|].
    exists s'. split; [exact Heq'|]. rewrite Hw', Hw, <- app_assoc. reflexivity.
Qed.

(** A packet received on the pipe leaves the schedule no longer. *)
Lemma receive_until_done_pipe_next (n : nat) (s : TcpSocket Pipe)
    (packet : Packet) (payload rest : list byte) :
  (length (schedule (os s)) <= n)%nat ->
  m_pendingPacket s = PendingPacket_init ->
  incoming (os s) = frame payload ++ rest ->
  size payload < 4294967296 ->
  exists s' packet',
    receive_until_done n s packet = Some (Done, s', packet')
    /\ m_data packet' = payload
    /\ m_pendingPacket s' = PendingPacket_init
    /\ incoming (os s') = rest
    /\ (length (schedule (os s')) <= length (schedule (os s)))%nat.
Proof.
  intros Hn Hinit Hinc Hsmall.
  assert (Hok : pending_ok (m_pendingPacket s))
    by (rewrite Hinit; exact pending_init_ok).
  destruct (@receive_until_done_pipe n s packet payload rest)
    as (s' & pk & Heq & Hdata & Hp & Hrest); auto.
  { rewrite Hinit, Hinc. reflexivity. }
  destruct (@receive_until_done_run _ _ n s packet Hok)
    as (st0 & s0 & pk0 & cs & Heq0 & _ & Ho & _).
  rewrite Heq in Heq0. inversion Heq0; subst st0 s0 pk0. clear Heq0.
  destruct (pipe_run Ho) as (_ & _ & Hlen).
  exists s', pk. auto.
Qed.

Lemma receive_packets_pipe (payloads : list (list byte)) :
  forall (n : nat) (s : TcpSocket Pipe) (rest : list byte),
    (length (schedule (os s)) <= n)%nat ->
    m_pendingPacket s = PendingPacket_init ->
    incoming (os s) = concat (map frame payloads) ++ rest ->
    Forall (fun payload => size payload < 4294967296) payloads ->
    exists s',
      receive_packets n s (length payloads) = Some (payloads, s')
      /\ m_pendingPacket s' = PendingPacket_init
      /\ incoming (os s') = rest.
Proof.
  induction payloads as [|payload more IH]; intros n s rest Hn Hinit Hinc Hall;
    simpl.
  - exists s. auto.
  - inversion Hall as [|? ? Hsmall Hmore]; subst.
    simpl in Hinc. rewrite <- app_assoc in Hinc.
    destruct (@receive_until_done_pipe_next n s (mkPacket [] 0) payload
                (concat (map frame more) ++ rest))
      as (s1 & pk & Heq & Hdata & Hp & Hrest & Hlen); auto.
    rewrite Heq.
    destruct (IH n s1 rest) as (s' & Heq' & Hp' & Hrest'); auto; [lia|].
    rewrite Heq', Hdata. exists s'. auto.
Qed.

(** X12: message boundaries are preserved.  Payloads shorter than 2^32
    bytes, sent one after the other over the pipe under any schedule of
    fragments and "would block" failures, put their frames on the wire back
    to back; and the peer, receiving as many packets under any schedule,
    gets the same payloads in the same order, with nothing left in flight
    or pending. *)
Theorem packets_keep_their_boundaries :
  forall (payloads : list (list byte))
         (send_schedule recv_schedule : list Event),
    Forall (fun payload => size payload < 4294967296) payloads ->
    exists sender receiver,
      send_packets (length send_schedule) (pipe_socket [] send_schedule)
                   payloads
      = Some sender
      /\ wire (os sender) = concat (map frame payloads)
      /\ receive_packets (length recv_schedule)
           (pipe_socket (wire (os sender)) recv_schedule) (length payloads)
         = Some (payloads, receiver)
      /\ m_pendingPacket receiver = PendingPacket_init
      /\ incoming (os receiver) = [].
Proof.
  intros payloads send_schedule recv_schedule Hall.
  destruct (@send_packets_pipe payloads (length send_schedule)
              (pipe_socket [] send_schedule))
    as (sender & Hsend & Hwire); [apply Nat.le_refl|].
  simpl in Hwire.
  destruct (@receive_packets_pipe payloads (length recv_schedule)
              (pipe_socket (wire (os sender)) recv_schedule) [])
    as (receiver & Hrecv & Hp & Hinc);
    [apply Nat.le_refl | reflexivity
    | rewrite Hwire, app_nil_r; reflexivity | exact Hall |].
  exists sender, receiver. auto.
Qed.

Lemma packets_keep_their_boundaries_witness :
  let payloads := [[x0a; x0b]; []; [x0c]] in
  let send_schedule := [Chunk 2; Block; Chunk 0; Chunk 4; Block; Chunk 1] in
  let recv_schedule := [Chunk 4; Block; Chunk 1; Chunk 6; Block] in
  Forall (fun payload => size payload < 4294967296) payloads
  /\ exists sender receiver,
      send_packets (length send_schedule) (pipe_socket [] send_schedule)
                   payloads
      = Some sender
      /\ wire (os sender) = concat (map frame payloads)
      /\ receive_packets (length recv_schedule)
           (pipe_socket (wire (os sender)) recv_schedule) (length payloads)
         = Some (payloads, receiver)
      /\ m_pendingPacket receiver = PendingPacket_init
      /\ incoming (os receiver) = [].
Proof.
  intros payloads send_schedule recv_schedule.
  assert (Hall : Forall (fun payload => size payload < 4294967296) payloads)
    by (repeat constructor).
  split; [exact Hall|].
  exact (@packets_keep_their_boundaries payloads send_schedule recv_schedule
           Hall).
Defined.
